(** * brain-farm-rs: the evolutionary core (crates [evo] and [farm])

    A shallow embedding of the fitness calculator, the tournament selector,
    elite injection, the generation loop [Run::run], and the crossover and
    mutation operators of the genome hierarchy.

    Rust's [f64] is Rocq's primitive binary64 [float]; its operations are
    specified by [FloatAxioms] over the [SpecFloat] model.  The thread-local
    random generator ([thread_rng], [random]) is an explicit stream of draws
    threaded through the code by a small state monad; a panic of the source is
    an outcome of that monad. *)

From Stdlib Require Import ZArith Bool List Lia Permutation Sorted.
From Stdlib Require Streams.
From Stdlib Require Import Floats.
From Stdlib Require Uint63.
Import ListNotations.

Open Scope Z_scope.

(** ** [f64]: order facts over the [SpecFloat] model *)

Module F64.

(** The order of [SpecFloat.SFcompare] as a lexicographic key: the class of
    the value, then exponent and mantissa (negated for negative values). *)
Definition key (x : spec_float) : Z * Z * Z :=
  match x with
  | S754_infinity true => (0, 0, 0)
  | S754_finite true m e => (1, - e, - Zpos m)
  | S754_zero _ => (2, 0, 0)
  | S754_finite false m e => (3, e, Zpos m)
  | S754_infinity false => (4, 0, 0)
  | S754_nan => (5, 0, 0)
  end.

Definition lex (a b : Z * Z * Z) : comparison :=
  let '(a1, a2, a3) := a in
  let '(b1, b2, b3) := b in
  match Z.compare a1 b1 with
  | Eq => match Z.compare a2 b2 with Eq => Z.compare a3 b3 | c => c end
  | c => c
  end.

Definition not_nan (x : spec_float) : bool :=
  match x with S754_nan => false | _ => true end.

(** The order of the primitive comparisons on non-NaN values. *)
Definition kx (f : float) := key (Prim2SF f).

(** Sign bit clear (or NaN). *)
Definition sign_false (x : spec_float) : bool :=
  match x with
  | S754_nan => true
  | S754_zero s | S754_infinity s | S754_finite s _ _ => negb s
  end.

(** Not below zero (or NaN): a zero of either sign, or a clear sign bit. *)
Definition nonneg (x : spec_float) : bool :=
  match x with S754_zero _ => true | _ => sign_false x end.

End F64.

(** ** [evo::fitness_calc]: [Calc::check] (src/lib/evo/src/fitness_calc/calc.rs) *)

Module Fitness.

(** [fitness_calc::error::Error] *)
Inductive Error := CannotConvert | ResultNaN | ResultInfinite.

(** [fitness_calc::error::Result] *)
Inductive result (A : Type) := Ok (a : A) | Err (e : Error).
Arguments Ok {A} a.
Arguments Err {A} e.

(** The [?] operator. *)
Definition rbind {A B} (r : result A) (k : A -> result B) : result B :=
  match r with Ok a => k a | Err e => Err e end.

(** [fitness_calc::training::Record] *)
Record TrainingRecord := { input : list float; output : list float }.

(** [x as f64] for a [usize] length.  A [Vec]'s length is at most
    [isize::MAX < 2^63], where this is the round-to-nearest conversion. *)
Definition usize_as_f64 (n : nat) : float :=
  of_uint63 (Uint63.of_Z (Z.of_nat n)).

Definition usize_max : Z := 2 ^ 64 - 1.

(** [f as usize]: truncation toward zero, saturating; NaN gives 0. *)
Definition f64_as_usize (f : float) : Z :=
  match Prim2SF f with
  | S754_finite false m e => Z.min usize_max (Z.shiftl (Zpos m) e)
  | S754_infinity false => usize_max
  | _ => 0
  end.

(** [convert] *)
Definition convert (x : nat) : result float :=
  let r := usize_as_f64 x in
  if Z.eqb (f64_as_usize r) (Z.of_nat x) then Ok r else Err CannotConvert.

(** [checked_divide] *)
Definition checked_divide (numerator denominator : float) : result float :=
  let r := (numerator / denominator)%float in
  if PrimFloat.is_nan r then Err ResultNaN
  else if PrimFloat.is_infinity r then Err ResultInfinite
  else Ok r.

(** [x.powi(2)]: [powi] multiplies by repeated squaring from [1.0], which for
    the exponent 2 is [1.0 * (x * x) = x * x]. *)
Definition powi2 (x : float) : float := (x * x)%float.

(** [Iterator::sum] on [f64]: a left fold of [+] from zero. *)
Definition f64_sum (l : list float) : float := fold_left PrimFloat.add l 0%float.

(** [Iterator::sum::<Result<f64>>]: the first [Err] stops the sum. *)
Fixpoint sum_results (acc : float) (l : list (result float)) : result float :=
  match l with
  | [] => Ok acc
  | Ok x :: t => sum_results (acc + x)%float t
  | Err e :: _ => Err e
  end.

(** [Record::get_mse]: [zip] stops at the shorter of the two. *)
Definition get_mse (t : TrainingRecord) (actual : list float) : list float :=
  map (fun '(expected, actual) => powi2 (expected - actual)%float)
    (combine t.(output) actual).

(** The [Predict] capability: [predict(input) -> output]. *)
Definition Predict := list float -> list float.

(** [Calc] is its training data. *)
Definition Calc := list TrainingRecord.

(** [Calc::get_mse_iter] *)
Definition get_mse_iter (calc : Calc) (predict : Predict) : list (list float) :=
  map (fun t => get_mse t (predict t.(input))) calc.

(** The closure of [Calc::check] mapped over the records. *)
Definition record_mse (x : list float) : result float :=
  rbind (convert (length x)) (fun x_len => checked_divide (f64_sum x) x_len).

(** [Calc::check] *)
Definition check (calc : Calc) (predict : Predict) : result float :=
  rbind (convert (length calc)) (fun len =>
  rbind (sum_results 0%float (map record_mse (get_mse_iter calc predict)))
    (fun mse_sum => checked_divide mse_sum len)).

(** The spec's formula: mean of per-record means of squared differences,
    each mean a sum over the count, in [f64]. *)
Definition f64_mean (l : list float) : float :=
  (f64_sum l / usize_as_f64 (length l))%float.

Definition spec_fitness (calc : Calc) (predict : Predict) : float :=
  f64_mean (map (fun t =>
    f64_mean (map (fun '(e, a) => ((e - a) * (e - a))%float)
                 (combine t.(output) (predict t.(input))))) calc).

(** The training set of the crate's test [test_fitness_calc]. *)
Definition test_calc : Calc := [ {| input := [0; 0]%float; output := [0]%float |} ].
Definition test_predict : Predict := fun _ => [0%float].

End Fitness.

(** ** The thread-local random generator ([rand] 0.8) *)

Module Rng.

(** One draw of the generator: the raw integer an integer range is reduced
    from, and the value a float range yields when it lies in that range.
    Every value of every range is reachable from some draw. *)
Record draw := { draw_int : N; draw_float : float }.

Definition rng := Streams.Stream draw.

(** What a computation of the source does: return (with the generator after
    it), panic, or run past the step budget of a [while] loop. *)
Inductive outcome (A : Type) :=
| Ret (a : A) (r : rng)
| Panic
| OutOfFuel.
Arguments Ret {A} a r.
Arguments Panic {A}.
Arguments OutOfFuel {A}.

Definition M (A : Type) := rng -> outcome A.

Definition ret {A} (a : A) : M A := fun r => Ret a r.

Definition bind {A B} (m : M A) (k : A -> M B) : M B :=
  fun r => match m r with
           | Ret a r' => k a r'
           | Panic => Panic
           | OutOfFuel => OutOfFuel
           end.

Notation "x <- m ;; k" := (bind m (fun x => k))
  (at level 61, m at next level, right associativity).

Definition panic {A} : M A := fun _ => Panic.

(** [rng.gen_range(lo..hi)] on [usize]: panics ("cannot sample empty range")
    when [hi <= lo]. *)
Definition gen_range_usize (lo hi : nat) : M nat := fun r =>
  if (hi <=? lo)%nat then Panic
  else Ret (lo + N.to_nat (draw_int (Streams.hd r)) mod (hi - lo))%nat (Streams.tl r).

(** [max_rand] of [UniformFloat::new_inclusive]: the largest value of
    [value1_2 - 1.0], that is [1 - 2^-52]. *)
Definition max_rand : float := 0x1.ffffffffffffep-1%float.

(** [rng.gen_range(lo..=hi)] on [f64] ([UniformFloat::new_inclusive]): panics
    when [lo > hi] (or a bound is NaN), and ("range overflow") when
    [scale = (hi - lo) / max_rand] is not finite; otherwise a value of
    [[lo, hi]]. *)
Definition gen_range_f64_incl (lo hi : float) : M float := fun r =>
  if negb (lo <=? hi)%float
     || negb (PrimFloat.is_finite ((hi - lo) / max_rand)%float) then Panic
  else
    let u := draw_float (Streams.hd r) in
    Ret (if (lo <=? u)%float && (u <=? hi)%float then u else lo) (Streams.tl r).

(** [rng.gen_range(lo..hi)] on [f64]: as above, on [[lo, hi)]. *)
Definition gen_range_f64 (lo hi : float) : M float := fun r =>
  if negb (lo <? hi)%float || negb (PrimFloat.is_finite (hi - lo)%float) then Panic
  else
    let u := draw_float (Streams.hd r) in
    Ret (if (lo <=? u)%float && (u <? hi)%float then u else lo) (Streams.tl r).

(** [rand::random::<f64>()]: a value of [[0, 1)]. *)
Definition random_f64 : M float := gen_range_f64 0 1.

(** [rand::random::<bool>()] *)
Definition random_bool : M bool := fun r =>
  Ret (N.odd (draw_int (Streams.hd r))) (Streams.tl r).

(** [v[i] = x] on an index in range (out of range, left unchanged). *)
Fixpoint list_set {A} (l : list A) (i : nat) (x : A) : list A :=
  match l, i with
  | [], _ => []
  | _ :: t, O => x :: t
  | y :: t, S i' => y :: list_set t i' x
  end.

(** [slice::swap(i, j)] on indices in range. *)
Definition swap (l : list nat) (i j : nat) : list nat :=
  list_set (list_set l i (nth j l 0%nat)) j (nth i l 0%nat).

(** [SliceRandom::shuffle] (Fisher-Yates): for [i] in [(1..len).rev()],
    [swap(i, gen_index(rng, i + 1))]. *)
Fixpoint shuffle_down (k : nat) (l : list nat) : M (list nat) :=
  match k with
  | O => ret l
  | S k' => j <- gen_range_usize 0 (S k) ;; shuffle_down k' (swap l k j)
  end.

Definition shuffle (l : list nat) : M (list nat) := shuffle_down (length l - 1) l.

(** [v[i]] *)
Definition index {A} (l : list A) (i : nat) : M A :=
  match nth_error l i with Some x => ret x | None => panic end.

Fixpoint mapM {A B} (f : A -> M B) (l : list A) : M (list B) :=
  match l with
  | [] => ret []
  | x :: t => y <- f x ;; ys <- mapM f t ;; ret (y :: ys)
  end.

End Rng.

(** ** [evo::algo::tournament] (src/lib/evo/src/algo/tournament.rs) *)

Module Tournament.
Import Rng.

(** [fitness_calc::compare::Record], whose [PartialOrd] compares fitness. *)
Record CompareRecord (G : Type) := { fitness : float; predict : G }.
Arguments fitness {G} c.
Arguments predict {G} c.
Arguments Build_CompareRecord {G} fitness predict.

Section Select.
Variable G : Type.

(** [Tournament::tournament_size] *)
Definition tournament_size (ts : nat) (candidates : list (CompareRecord G)) : nat :=
  Nat.min ts (length candidates).

(** [Tournament::tournament_iter] *)
Definition tournament_iter (ts : nat) (candidates : list (CompareRecord G))
    : M (list (CompareRecord G)) :=
  indexes <- shuffle (seq 0 (length candidates)) ;;
  mapM (index candidates) (firstn (tournament_size ts candidates) indexes).

(** The body of the loop of [Tournament::select]. *)
Definition select_step (winner : option (CompareRecord G)) (candidate : CompareRecord G)
    : option (CompareRecord G) :=
  Some (match winner with
        | None => candidate
        | Some w =>
            match PrimFloat.compare (fitness w) (fitness candidate) with
            | FLt => w
            | _ => candidate
            end
        end).

(** [Tournament::select] *)
Definition select (ts : nat) (candidates : list (CompareRecord G))
    : M (option (CompareRecord G)) :=
  sample <- tournament_iter ts candidates ;;
  ret (fold_left select_step sample None).

End Select.
Arguments tournament_size {G} ts candidates.
Arguments tournament_iter {G} ts candidates.
Arguments select_step {G} winner candidate.
Arguments select {G} ts candidates.

End Tournament.

(** ** [evo::fitness_calc]: [Calc::best_entity] (src/lib/evo/src/fitness_calc/calc.rs) *)

Module BestEntity.
Import Fitness Tournament.

(** [Iterator::collect::<Result<Vec<_>>>]: the first [Err] stops it. *)
Fixpoint collect_results {A} (l : list (result A)) : result (list A) :=
  match l with
  | [] => Ok []
  | Ok x :: t => rbind (collect_results t) (fun xs => Ok (x :: xs))
  | Err e :: _ => Err e
  end.

(** [std::cmp::min_by]: the first argument unless it compares [Greater]. *)
Definition cmp_min_by {A} (compare : A -> A -> comparison) (v1 v2 : A) : A :=
  match compare v1 v2 with Lt | Eq => v1 | Gt => v2 end.

(** [Iterator::min_by]: [reduce] with [cmp::min_by]. *)
Definition min_by {A} (compare : A -> A -> comparison) (l : list A) : option A :=
  match l with
  | [] => None
  | x :: t => Some (fold_left (cmp_min_by compare) t x)
  end.

Section Best.
Variable P : Type.

(** The entities' [Predict] implementation. *)
Variable predict_of : P -> Predict.

(** [Calc::best_entity], with [compare] the [Compare] implementation. *)
Definition best_entity (calc : Calc)
    (compare : CompareRecord P -> CompareRecord P -> comparison)
    (entities : list P) : result (option P) :=
  rbind (collect_results (map (fun predict =>
           rbind (check calc (predict_of predict)) (fun fitness =>
           Ok (Build_CompareRecord fitness predict))) entities))
    (fun vector => Ok (option_map (fun record => Tournament.predict record)
                                  (min_by compare vector))).

End Best.
Arguments best_entity {P} predict_of calc compare entities.

End BestEntity.

(** ** [evo::algo::inject] (src/lib/evo/src/algo/inject.rs) *)

Module Inject.
Import Rng.

Section Inject.
Variable G : Type.

(** The loop of [inject::genomes] over the elites. *)
Fixpoint inject_loop (generation : list G) (generation_size : nat) (elite : list G)
    : M (list G) :=
  match elite with
  | [] => ret generation
  | genome :: rest =>
      generation_index <- gen_range_usize 0 generation_size ;;
      inject_loop (list_set generation generation_index genome) generation_size rest
  end.

(** [inject::genomes] *)
Definition genomes (generation elite : list G) : M (list G) :=
  inject_loop generation (length generation) elite.

End Inject.
Arguments genomes {G} generation elite.

End Inject.

(** ** [evo::algo::run] (src/lib/evo/src/algo/run.rs) *)

Module Run.
Import Rng Fitness Tournament.

Section Run.
Variable G : Type.

(** The genome's [Predict] implementation. *)
Variable predict_of : G -> Predict.

(** The [Breed] trait: [crossover] of a pair and [mutate] (identity by
    default); both may draw from the generator. *)
Record Breed := { crossover : G * G -> M G; mutate : G -> M G }.

(** [breed::Manager::breed] *)
Definition breed (b : Breed) (left' right' : G) : M G :=
  offspring <- crossover b (left', right') ;; mutate b offspring.

(** [Run] (built by [Builder::build], which requires a breeder and a fitness
    calculator; [elitism] defaults to 1 and [tournament_size] to 10). *)
Record Run := {
  breeder : Breed;
  fitness_calc : Calc;
  elitism : nat;
  tournament_size : nat
}.

(** Modelled from the spec: [FitnessCalc::create_compare_record], absent from
    the sources, pairs the genome with its fitness and fails as [check] fails
    ("a genome whose fitness cannot be computed is dropped"). *)
Definition create_compare_record (calc : Calc) (g : G) : result (CompareRecord G) :=
  match check calc (predict_of g) with
  | Ok fitness => Ok (Build_CompareRecord fitness g)
  | Err e => Err e
  end.

(** [Result::ok] *)
Definition result_ok {A} (r : result A) : option A :=
  match r with Ok a => Some a | Err _ => None end.

Fixpoint filter_map {A B} (f : A -> option B) (l : list A) : list B :=
  match l with
  | [] => []
  | x :: t => match f x with Some y => y :: filter_map f t | None => filter_map f t end
  end.

(** [Run::rank_generation] *)
Definition rank_generation (run : Run) (generation : list G) : list (CompareRecord G) :=
  filter_map (fun g => result_ok (create_compare_record (fitness_calc run) g)) generation.

(** The [while next_generation.len() < gen_size] loop of [Run::new_generation],
    with a budget of [fuel] iterations. *)
Fixpoint breed_loop (run : Run) (fuel : nat) (generation : list (CompareRecord G))
    (gen_size : nat) (next_generation : list (CompareRecord G))
    : M (list (CompareRecord G)) :=
  if (length next_generation <? gen_size)%nat then
    match fuel with
    | O => fun _ => OutOfFuel
    | S fuel' =>
        left' <- select (tournament_size run) generation ;;
        right' <- select (tournament_size run) generation ;;
        match left', right' with
        | Some left', Some right' =>
            child <- breed (breeder run) (predict left') (predict right') ;;
            match check (fitness_calc run) (predict_of child) with
            | Ok fitness =>
                breed_loop run fuel' generation gen_size
                  (next_generation ++ [Build_CompareRecord fitness child])
            | Err _ => breed_loop run fuel' generation gen_size next_generation
            end
        | _, _ => breed_loop run fuel' generation gen_size next_generation
        end
    end
  else ret next_generation.

(** [Run::new_generation]: [gen_size] is the length of the ranked pool. *)
Definition new_generation (run : Run) (fuel : nat) (generation : list (CompareRecord G))
    : M (list (CompareRecord G)) :=
  breed_loop run fuel generation (length generation) [].

(** [unrank::unrank_generation] *)
Definition unrank_generation (ranked : list (CompareRecord G)) : list G :=
  map predict ranked.

(** [Run::breed_generation] *)
Definition breed_generation (run : Run) (fuel : nat) (parents : list (CompareRecord G))
    : M (list G) :=
  next_generation <- new_generation run fuel parents ;;
  ret (unrank_generation next_generation).

(** The comparator of [sort::sort_generation]:
    [partial_cmp(left, right).unwrap_or(Equal)] is [Greater] exactly when the
    left fitness is greater. *)
Definition cmp_greater (left' right' : CompareRecord G) : bool :=
  match PrimFloat.compare (fitness left') (fitness right') with FGt => true | _ => false end.

Fixpoint insert_sorted (x : CompareRecord G) (l : list (CompareRecord G))
    : list (CompareRecord G) :=
  match l with
  | [] => [x]
  | y :: t => if cmp_greater y x then x :: y :: t else y :: insert_sorted x t
  end.

(** [sort::sort_generation]: [sort_by] is a stable sort (an insertion sort
    here; both agree whenever the comparator is a total preorder). *)
Definition sort_generation (candidates : list (CompareRecord G)) : list (CompareRecord G) :=
  fold_right insert_sorted [] (rev candidates).

(** [Run::partition_elite] *)
Definition partition_elite (run : Run) (ranked : list (CompareRecord G)) : list G :=
  let sorted := unrank_generation (sort_generation ranked) in
  firstn (Nat.min (elitism run) (length sorted)) sorted.

(** [Run::run] *)
Definition run (r : Run) (fuel : nat) (generation : list G) : M (list G) :=
  let ranked := rank_generation r generation in
  next_generation <- breed_generation r fuel ranked ;;
  let elite := partition_elite r ranked in
  Inject.genomes next_generation elite.

End Run.
Arguments crossover {G} b.
Arguments mutate {G} b.
Arguments Build_Breed {G} crossover mutate.
Arguments breeder {G} r.
Arguments fitness_calc {G} r.
Arguments elitism {G} r.
Arguments tournament_size {G} r.
Arguments Build_Run {G} breeder fitness_calc elitism tournament_size.
Arguments create_compare_record {G} predict_of calc g.
Arguments rank_generation {G} predict_of run generation.
Arguments breed_loop {G} predict_of run fuel generation gen_size next_generation.
Arguments new_generation {G} predict_of run fuel generation.
Arguments breed_generation {G} predict_of run fuel parents.
Arguments partition_elite {G} run ranked.
Arguments run {G} predict_of r fuel generation.

(** The genome of the crate's documentation example: a scalar that scales
    its input, bred by averaging (the default [mutate] is the identity). *)
Definition scale_predict (value : float) : Predict :=
  fun input => map (fun x => (x * value)%float) input.

Definition averaging_breeder : Breed float :=
  Build_Breed (fun '(a, b) => ret ((a + b) / 2)%float) ret.

End Run.

(** ** [farm]: crossover and mutation of genomes
    (src/lib/farm/src/genome, src/lib/farm/src/mutate) *)

Module Farm.
Import Rng.

(** [f64::EPSILON] and [f64::MAX] *)
Definition f64_epsilon : float := 0x1p-52%float.
Definition f64_max_value : float := 0x1.fffffffffffffp+1023%float.

(** [f64::min] and [f64::max]: a NaN argument yields the other one; between
    equal values (such as [0.0] and [-0.0]) either may be returned. *)
Definition f64_min (x y : float) : float :=
  if PrimFloat.is_nan x then y else if PrimFloat.is_nan y then x
  else if (x <? y)%float then x else y.

Definition f64_max (x y : float) : float :=
  if PrimFloat.is_nan x then y else if PrimFloat.is_nan y then x
  else if (y <? x)%float then x else y.

(** [f.is_nan() || f.is_infinite()] *)
Definition nan_or_infinite (f : float) : bool :=
  PrimFloat.is_nan f || PrimFloat.is_infinity f.

(** [impl Crossover for f64] *)
Definition f64_crossover (self other : float) : M float :=
  a <- (if nan_or_infinite self then gen_range_f64_incl (-1) 1 else ret self) ;;
  b <- (if nan_or_infinite other then gen_range_f64_incl (-1) 1 else ret other) ;;
  let min := f64_min a b in
  let max := f64_max a b in
  if (PrimFloat.abs (max - min) <? f64_epsilon)%float then ret min
  else gen_range_f64_incl min max.

(** [impl<T: Crossover + Clone> Crossover for Vec<T>], over the crossover of
    the elements. *)
Definition vec_crossover {T} (cross : T -> T -> M T) (self other : list T) : M (list T) :=
  let self_len := length self in
  let other_len := length other in
  let min_size := Nat.min self_len other_len in
  let rest := if (self_len <? other_len)%nat then skipn min_size other
              else skipn min_size self in
  crossed <- mapM (fun '(a, b) => cross a b) (combine self other) ;;
  ret (crossed ++ rest).

(** [mutate::mutator::Mutator] *)
Record Mutator := { mutation_rate : float; mutation_size_cfg : float }.

(** [Mutator::builder().build()]: rate and size [0.15] (the nearest [f64]). *)
Definition default_mutator : Mutator :=
  {| mutation_rate := 0x1.3333333333333p-3%float;
     mutation_size_cfg := 0x1.3333333333333p-3%float |}.

(** [Mutator::check_mutate] *)
Definition check_mutate (m : Mutator) : M bool :=
  u <- gen_range_f64 0 1 ;; ret (u <? mutation_rate m)%float.

(** [Mutator::mutation_size] *)
Definition mutation_size (m : Mutator) : M float :=
  u <- gen_range_f64 (-1) 1 ;; ret (mutation_size_cfg m * u)%float.

(** [impl Target for f64]: [mutation_size() > 0.0 && check_mutate()], then
    [self += random::<f64>() * mutation_size()]. *)
Definition f64_mutate (m : Mutator) (x : float) : M float :=
  s <- mutation_size m ;;
  if (0 <? s)%float then
    c <- check_mutate m ;;
    if c then
      u <- random_f64 ;;
      s' <- mutation_size m ;;
      ret (x + u * s')%float
    else ret x
  else ret x.

(** [impl<T: Target> Target for Vec<T>] *)
Definition vec_mutate {T} (mutate : T -> M T) (l : list T) : M (list T) :=
  mapM mutate l.

(** [genome::activator::Gene] *)
Inductive Gene := Linear | Sigmoid.

(** [Distribution<Gene> for Standard]: [gen_range(0..2)]. *)
Definition random_gene : M Gene :=
  k <- gen_range_usize 0 2 ;; ret (match k with O => Linear | _ => Sigmoid end).

(** [impl Target for Gene] *)
Definition gene_mutate (m : Mutator) (g : Gene) : M Gene :=
  s <- mutation_size m ;;
  if (0 <? s)%float then
    c <- check_mutate m ;;
    if c then random_gene else ret g
  else ret g.

(** [genome::activator::Genome] and its [Target] implementation. *)
Record ActivatorGenome := { activator_gene : Gene }.

Definition activator_mutate (m : Mutator) (g : ActivatorGenome) : M ActivatorGenome :=
  a <- gene_mutate m (activator_gene g) ;; ret {| activator_gene := a |}.

(** [mutate::target::VecMutation] *)
Inductive VecMutation (T : Type) :=
| Insert (index : nat) (element : T)
| Replace (index : nat) (element : T)
| Remove (index : nat)
| Swap (i_index j_index : nat)
| Reverse (i_index j_index : nat).
Arguments Insert {T} index element.
Arguments Replace {T} index element.
Arguments Remove {T} index.
Arguments Swap {T} i_index j_index.
Arguments Reverse {T} i_index j_index.

(** [VecMutation::new]: the variant, then its indices and (for [Insert] and
    [Replace]) the element from [factory], in that order. *)
Definition vec_mutation_new {T} (len : nat) (factory : M T) : M (VecMutation T) :=
  k <- gen_range_usize 0 5 ;;
  match k with
  | 0%nat => i <- gen_range_usize 0 len ;; x <- factory ;; ret (Insert i x)
  | 1%nat => i <- gen_range_usize 0 len ;; x <- factory ;; ret (Replace i x)
  | 2%nat => i <- gen_range_usize 0 len ;; ret (Remove i)
  | 3%nat => i <- gen_range_usize 0 len ;; j <- gen_range_usize 0 len ;; ret (Swap i j)
  | _ => i <- gen_range_usize 0 len ;; j <- gen_range_usize 0 len ;; ret (Reverse i j)
  end.

(** [slice::swap] on a generic slice; [None] is the out-of-bounds panic. *)
Definition slice_swap {T} (l : list T) (i j : nat) : option (list T) :=
  match nth_error l i, nth_error l j with
  | Some a, Some b => Some (list_set (list_set l i b) j a)
  | _, _ => None
  end.

(** [VecMutation::apply]; [None] is a panic ([Vec::insert], indexing,
    [Vec::remove], [swap] or the slice [min..=max] out of bounds). *)
Definition vec_mutation_apply {T} (v : VecMutation T) (l : list T) : option (list T) :=
  match v with
  | Insert i x =>
      if (i <=? length l)%nat then Some (firstn i l ++ x :: skipn i l) else None
  | Replace i x => if (i <? length l)%nat then Some (list_set l i x) else None
  | Remove i =>
      if (i <? length l)%nat then Some (firstn i l ++ skipn (S i) l) else None
  | Swap i j => slice_swap l i j
  | Reverse i j =>
      let min := Nat.min i j in
      let max := Nat.max i j in
      if (min =? max)%nat then Some l
      else if (max <? length l)%nat then
        Some (firstn min l ++ rev (firstn (S max - min) (skipn min l)) ++ skipn (S max) l)
      else None
  end.

(** [matches!(v, Swap(_, _) | Replace(_, _) | Reverse(_, _))] *)
Definition is_neuron_level {T} (v : VecMutation T) : bool :=
  match v with Swap _ _ | Replace _ _ | Reverse _ _ => true | _ => false end.

(** The [(min, max)] fold of [neuron::mutate_weights] over the finite weights. *)
Definition min_max_step (acc : option float * option float) (n : float)
    : option float * option float :=
  let '(min, max) := acc in
  (Some (match min with Some min => f64_min n min | None => n end),
   Some (match max with Some max => f64_max n max | None => n end)).

Definition finite_weights (weights : list float) : list float :=
  filter (fun n => PrimFloat.is_finite n && negb (PrimFloat.is_nan n)) weights.

(** [genome::neuron::mutate_weights] *)
Definition mutate_weights (weights : list float) : M (list float) :=
  match fold_left min_max_step (finite_weights weights) (None, None) with
  | (Some min, Some max) =>
      if (min <? max)%float then
        vec_mutation <- vec_mutation_new (length weights) (gen_range_f64_incl min max) ;;
        if is_neuron_level vec_mutation then
          match vec_mutation_apply vec_mutation weights with
          | Some weights' => ret weights'
          | None => panic
          end
        else ret weights
      else ret weights
  | _ => ret weights
  end.

(** [genome::neuron::Genome] *)
Record NeuronGenome := {
  activator : ActivatorGenome;
  weights : list float;
  bias : float
}.

(** [impl Target for neuron::Genome] *)
Definition neuron_mutate (m : Mutator) (g : NeuronGenome) : M NeuronGenome :=
  a <- activator_mutate m (activator g) ;;
  w <- vec_mutate (f64_mutate m) (weights g) ;;
  b <- f64_mutate m (bias g) ;;
  c <- check_mutate m ;;
  w' <- (if c then mutate_weights w else ret w) ;;
  ret {| activator := a; weights := w'; bias := b |}.

(** [impl Crossover for activator::Gene]: equal genes are kept, otherwise
    [rand::random::<bool>()] picks one. *)
Definition gene_crossover (self other : Gene) : M Gene :=
  match self, other with
  | Linear, Linear => ret Linear
  | Sigmoid, Sigmoid => ret Sigmoid
  | _, _ => b <- random_bool ;; ret (if b then self else other)
  end.

(** [impl Crossover for activator::Genome] *)
Definition activator_crossover (self other : ActivatorGenome) : M ActivatorGenome :=
  a <- gene_crossover (activator_gene self) (activator_gene other) ;;
  ret {| activator_gene := a |}.

(** [impl Crossover for neuron::Genome]: the fields in declaration order. *)
Definition neuron_crossover (self other : NeuronGenome) : M NeuronGenome :=
  a <- activator_crossover (activator self) (activator other) ;;
  w <- vec_crossover f64_crossover (weights self) (weights other) ;;
  b <- f64_crossover (bias self) (bias other) ;;
  ret {| activator := a; weights := w; bias := b |}.

(** [genome::layer::Genome] *)
Record LayerGenome := { neurons : list NeuronGenome }.

(** [impl Crossover for layer::Genome] *)
Definition layer_crossover (self other : LayerGenome) : M LayerGenome :=
  n <- vec_crossover neuron_crossover (neurons self) (neurons other) ;;
  ret {| neurons := n |}.

(** [impl Target for layer::Genome] *)
Definition layer_mutate (m : Mutator) (g : LayerGenome) : M LayerGenome :=
  n <- vec_mutate (neuron_mutate m) (neurons g) ;; ret {| neurons := n |}.

(** [genome::network::Genome] *)
Record NetworkGenome := { layers : list LayerGenome }.

(** [impl Crossover for network::Genome] *)
Definition network_crossover (self other : NetworkGenome) : M NetworkGenome :=
  l <- vec_crossover layer_crossover (layers self) (layers other) ;;
  ret {| layers := l |}.

(** [impl Target for network::Genome] *)
Definition network_mutate (m : Mutator) (g : NetworkGenome) : M NetworkGenome :=
  l <- vec_mutate (layer_mutate m) (layers g) ;; ret {| layers := l |}.

(** The shape of a network genome: for each layer, the number of weights
    of each of its neurons. *)
Definition network_shape (g : NetworkGenome) : list (list nat) :=
  map (fun l => map (fun n => length (weights n)) (neurons l)) (layers g).

End Farm.

(** ** The order of a tournament *)

Module TournamentOrder.
Import Tournament.

Section Order.
Variable G : Type.

Definition fit_le (x y : CompareRecord G) : Prop := (fitness x <=? fitness y)%float = true.
Definition fit_lt (x y : CompareRecord G) : Prop := (fitness x <? fitness y)%float = true.
Definition not_nan_rec (x : CompareRecord G) : Prop := PrimFloat.is_nan (fitness x) = false.

(** The winner of a fold of [select_step]: every earlier record is not
    better, every later one is strictly worse. *)
Definition last_min (s : list (CompareRecord G)) (w : CompareRecord G) : Prop :=
  exists s1 s2, s = s1 ++ w :: s2 /\ Forall (fit_le w) s1 /\ Forall (fit_lt w) s2.

End Order.
Arguments fit_le {G} x y.
Arguments fit_lt {G} x y.
Arguments not_nan_rec {G} x.
Arguments last_min {G} s w.

End TournamentOrder.

(** ** Concrete inputs *)

Module Inputs.
Import Rng Tournament.

(** A generator whose every draw is [n] (integers) and [u] (floats). *)
Definition rng_const (n : N) (u : float) : rng :=
  Streams.const {| draw_int := n; draw_float := u |}.

(** Two records of equal fitness [1.0]. *)
Definition c3_rec0 : CompareRecord nat := Build_CompareRecord 1%float 0%nat.
Definition c3_rec1 : CompareRecord nat := Build_CompareRecord 1%float 1%nat.
Definition c3_pool : list (CompareRecord nat) := [c3_rec0; c3_rec1].

(** A training set of one record: output [0] expected for input [1]. *)
Definition calc1 : Fitness.Calc := [ {| Fitness.input := [1%float]; Fitness.output := [0%float] |} ].

(** The documentation example's algorithm: averaging breeder, elitism 1 and
    tournament size 10 (the builder's defaults). *)
Definition run1 : Run.Run float := Run.Build_Run Run.averaging_breeder calc1 1 10.

(** A generation whose second genome has no computable fitness (its
    predictions are NaN). *)
Definition gen_with_nan : list float := [1%float; nan].

(** A generation in which no genome has a computable fitness. *)
Definition gen_all_nan : list float := [nan; nan].

(** A neuron whose finite weights span all of [f64]: [max - min] overflows. *)
Definition c8_genome : Farm.NeuronGenome :=
  {| Farm.activator := {| Farm.activator_gene := Farm.Linear |};
     Farm.weights := [(- Farm.f64_max_value)%float; Farm.f64_max_value];
     Farm.bias := 0%float |}.

(** A neuron with weights [[0.0; 1.0; 2.0]]. *)
Definition small_genome : Farm.NeuronGenome :=
  {| Farm.activator := {| Farm.activator_gene := Farm.Linear |};
     Farm.weights := [0%float; 1%float; 2%float];
     Farm.bias := 0%float |}.

(** The documentation's comparator, [left.fitness.partial_cmp(&right.fitness)],
    on the [f64] order of non-NaN values. *)
Definition fitness_compare {G} (x y : CompareRecord G) : comparison :=
  F64.lex (F64.kx (fitness x)) (F64.kx (fitness y)).

(** Three records of distinct fitness [3.0], [1.0] and [2.0]. *)
Definition x7_pool : list (CompareRecord nat) :=
  [Build_CompareRecord 3%float 0%nat; Build_CompareRecord 1%float 1%nat;
   Build_CompareRecord 2%float 2%nat].

(** Four records, two of fitness [2.0] and two of fitness [1.0]. *)
Definition tie_pool : list (CompareRecord nat) :=
  [Build_CompareRecord 2%float 0%nat; Build_CompareRecord 1%float 1%nat;
   Build_CompareRecord 2%float 2%nat; Build_CompareRecord 1%float 3%nat].

(** A mutator with rate [0.0]. *)
Definition zero_mutator : Farm.Mutator :=
  {| Farm.mutation_rate := 0%float; Farm.mutation_size_cfg := 0x1.3333333333333p-3%float |}.

(** A network of two layers: neurons [small_genome; c8_genome], then
    [small_genome]. *)
Definition net1 : Farm.NetworkGenome :=
  {| Farm.layers := [ {| Farm.neurons := [small_genome; c8_genome] |};
                      {| Farm.neurons := [small_genome] |} ] |}.

End Inputs.

(** * Proofs *)

(** ** [f64]: order and sign facts over the [SpecFloat] model *)

Module F64Facts.
Import F64.

Lemma SFcompare_key x y :
  not_nan x = true -> not_nan y = true ->
  SFcompare x y = Some (lex (key x) (key y)).
Proof.
  destruct x as [[]|[]| |[] mx ex]; destruct y as [[]|[]| |[] my ey];
    intros Hx Hy; try discriminate; simpl; try reflexivity.
  - rewrite Z.compare_opp, (Z.compare_antisym ex ey).
    destruct (Z.compare ex ey); reflexivity.
Qed.

Lemma lex_refl k : lex k k = Eq.
Proof. destruct k as [[a b] c]; simpl; rewrite !Z.compare_refl; reflexivity. Qed.

Lemma lex_antisym a b : lex b a = CompOpp (lex a b).
Proof.
  destruct a as [[a1 a2] a3], b as [[b1 b2] b3]; simpl.
  rewrite (Z.compare_antisym a1 b1), (Z.compare_antisym a2 b2),
    (Z.compare_antisym a3 b3).
  destruct (Z.compare a1 b1), (Z.compare a2 b2); reflexivity.
Qed.

Lemma lex_le_trans a b c :
  lex a b <> Gt -> lex b c <> Gt -> lex a c <> Gt.
Proof.
  destruct a as [[a1 a2] a3], b as [[b1 b2] b3], c as [[c1 c2] c3]; simpl.
  destruct (Z.compare_spec a1 b1), (Z.compare_spec b1 c1),
    (Z.compare_spec a1 c1); try lia; try congruence;
  destruct (Z.compare_spec a2 b2), (Z.compare_spec b2 c2),
    (Z.compare_spec a2 c2); try lia; try congruence;
  destruct (Z.compare_spec a3 b3), (Z.compare_spec b3 c3),
    (Z.compare_spec a3 c3); try lia; congruence.
Qed.

(** [is_nan] of the source is [f.is_nan()]; on the model it is [S754_nan]. *)
Lemma is_nan_Prim2SF (f : float) :
  PrimFloat.is_nan f = negb (not_nan (Prim2SF f)).
Proof.
  unfold PrimFloat.is_nan. rewrite eqb_spec.
  unfold SFeqb.
  destruct (Prim2SF f) as [[]|[]| |[] m e]; simpl; try reflexivity;
    rewrite Z.compare_refl; simpl; rewrite Pos.compare_cont_refl;
    reflexivity.
Qed.

Lemma not_nan_of (f : float) :
  PrimFloat.is_nan f = false -> not_nan (Prim2SF f) = true.
Proof. rewrite is_nan_Prim2SF. destruct (not_nan (Prim2SF f)); easy. Qed.

Lemma leb_lex (x y : float) :
  PrimFloat.is_nan x = false -> PrimFloat.is_nan y = false ->
  (x <=? y)%float = true <-> lex (kx x) (kx y) <> Gt.
Proof.
  intros Hx Hy. rewrite leb_spec. unfold SFleb, kx.
  rewrite SFcompare_key by (apply not_nan_of; assumption).
  destruct (lex _ _); split; congruence.
Qed.

Lemma ltb_lex (x y : float) :
  PrimFloat.is_nan x = false -> PrimFloat.is_nan y = false ->
  (x <? y)%float = true <-> lex (kx x) (kx y) = Lt.
Proof.
  intros Hx Hy. rewrite ltb_spec. unfold SFltb, kx.
  rewrite SFcompare_key by (apply not_nan_of; assumption).
  destruct (lex _ _); split; congruence.
Qed.

Lemma compare_lex (x y : float) :
  PrimFloat.is_nan x = false -> PrimFloat.is_nan y = false ->
  (x ?= y)%float =
    match lex (kx x) (kx y) with Lt => FLt | Eq => FEq | Gt => FGt end.
Proof.
  intros Hx Hy. rewrite compare_spec. unfold kx.
  rewrite SFcompare_key by (apply not_nan_of; assumption).
  reflexivity.
Qed.

Lemma compare_nan_l (x y : float) :
  PrimFloat.is_nan x = true -> (x ?= y)%float = FNotComparable.
Proof.
  rewrite is_nan_Prim2SF, compare_spec.
  destruct (Prim2SF x); try discriminate. reflexivity.
Qed.

(** ** Signs, for the non-negativity of a mean squared error *)

Lemma sign_false_nonneg x : sign_false x = true -> nonneg x = true.
Proof. destruct x; simpl; auto. Qed.

Lemma round_aux_sign_false m e l :
  sign_false (binary_round_aux prec emax false m e l) = true.
Proof.
  unfold binary_round_aux.
  repeat match goal with |- context [let '(_, _) := ?p in _] => destruct p end.
  destruct (shr_m _); try reflexivity.
  destruct (_ <=? _); reflexivity.
Qed.

Lemma normalize_sign_false m e :
  0 <= m -> sign_false (binary_normalize prec emax m e false) = true.
Proof.
  intros Hm. destruct m as [|p|p]; [reflexivity| |lia].
  unfold binary_normalize, binary_round.
  destruct (shl_align _ _ _); apply round_aux_sign_false.
Qed.

Lemma mul_self_sign_false x : sign_false (SF64mul x x) = true.
Proof.
  destruct x as [[]|[]| |[] m e]; try reflexivity;
    apply round_aux_sign_false.
Qed.

Lemma add_nonneg x y :
  nonneg x = true -> nonneg y = true -> nonneg (SF64add x y) = true.
Proof.
  destruct x as [[]|[]| |[] mx ex]; destruct y as [[]|[]| |[] my ey];
    intros Hx Hy; try discriminate; try reflexivity.
  apply sign_false_nonneg; unfold SF64add, SFadd, cond_Zopp.
  apply normalize_sign_false. lia.
Qed.

Lemma div_nonneg x y :
  nonneg x = true -> sign_false y = true -> nonneg (SF64div x y) = true.
Proof.
  destruct x as [[]|[]| |[] mx ex]; destruct y as [[]|[]| |[] my ey];
    intros Hx Hy; try discriminate; try reflexivity.
  apply sign_false_nonneg; unfold SF64div, SFdiv.
  destruct (SFdiv_core_binary _ _ _ _) as [[mz ez] lz].
  apply round_aux_sign_false.
Qed.

Lemma of_uint63_sign_false n : sign_false (Prim2SF (of_uint63 n)) = true.
Proof.
  rewrite of_uint63_spec. apply normalize_sign_false.
  apply Uint63.to_Z_bounded.
Qed.

Lemma leb_zero_nonneg (f : float) :
  PrimFloat.is_nan f = false -> nonneg (Prim2SF f) = true -> (0 <=? f)%float = true.
Proof.
  intros Hn Hf. apply not_nan_of in Hn. rewrite leb_spec.
  change (Prim2SF 0%float) with (S754_zero false).
  destruct (Prim2SF f) as [[]|[]| |[] m e]; try discriminate; reflexivity.
Qed.

End F64Facts.

Module FitnessFacts.
Import Fitness F64 F64Facts.

Example check_test_calc : check test_calc test_predict = Ok 0%float.
Proof. vm_compute. reflexivity. Qed.

Example check_empty_training : check [] test_predict = Err ResultNaN.
Proof. vm_compute. reflexivity. Qed.


Lemma convert_ok n r : convert n = Ok r -> r = usize_as_f64 n.
Proof.
  unfold convert. destruct (Z.eqb _ _); intros H; inversion H; reflexivity.
Qed.

Lemma checked_divide_ok a b r :
  checked_divide a b = Ok r ->
  r = (a / b)%float /\ PrimFloat.is_nan r = false /\ PrimFloat.is_infinity r = false.
Proof.
  unfold checked_divide.
  destruct (PrimFloat.is_nan (a / b)) eqn:Hn; [discriminate|].
  destruct (PrimFloat.is_infinity (a / b)) eqn:Hi; [discriminate|].
  intros H; inversion H; subst; auto.
Qed.

Lemma checked_divide_nan a b :
  PrimFloat.is_nan (a / b) = true -> checked_divide a b = Err ResultNaN.
Proof. unfold checked_divide. intros ->. reflexivity. Qed.

Lemma checked_divide_infinite a b :
  PrimFloat.is_nan (a / b) = false -> PrimFloat.is_infinity (a / b) = true ->
  checked_divide a b = Err ResultInfinite.
Proof. unfold checked_divide. intros -> ->. reflexivity. Qed.

(** A successful [Result] sum is the fold of the successful values. *)
Lemma sum_results_map_ok {A} (f : A -> result float) (g : A -> float) l acc s :
  (forall x v, In x l -> f x = Ok v -> v = g x) ->
  sum_results acc (map f l) = Ok s -> s = fold_left PrimFloat.add (map g l) acc.
Proof.
  revert acc; induction l as [|x l IH]; intros acc Hfg H; simpl in *.
  - inversion H; reflexivity.
  - destruct (f x) as [v|e] eqn:Hx; [|discriminate].
    rewrite <- (Hfg x v (or_introl eq_refl) Hx).
    apply IH; auto.
Qed.

(** ... and it is [Err] as soon as one of the summands is. *)
Lemma sum_results_map_err {A} (f : A -> result float) l acc x e :
  In x l -> f x = Err e -> exists e', sum_results acc (map f l) = Err e'.
Proof.
  revert acc; induction l as [|y l IH]; intros acc Hin Hx; [destruct Hin|].
  simpl. destruct Hin as [<-|Hin].
  - rewrite Hx. eauto.
  - destruct (f y); eauto.
Qed.

Lemma sum_results_map_nonneg {A} (f : A -> result float) l acc s :
  (forall x v, In x l -> f x = Ok v -> nonneg (Prim2SF v) = true) ->
  nonneg (Prim2SF acc) = true ->
  sum_results acc (map f l) = Ok s -> nonneg (Prim2SF s) = true.
Proof.
  revert acc; induction l as [|x l IH]; intros acc Hf Hacc H; simpl in *.
  - inversion H; subst; assumption.
  - destruct (f x) as [v|e] eqn:Hx; [|discriminate].
    apply (IH (acc + v)%float); [| |assumption].
    + intros y w Hy. apply Hf. right. exact Hy.
    + rewrite add_spec. apply add_nonneg; [assumption|].
      exact (Hf x v (or_introl eq_refl) Hx).
Qed.

Lemma fold_add_nonneg l acc :
  Forall (fun v => nonneg (Prim2SF v) = true) l ->
  nonneg (Prim2SF acc) = true ->
  nonneg (Prim2SF (fold_left PrimFloat.add l acc)) = true.
Proof.
  revert acc; induction l as [|x l IH]; intros acc Hl Hacc; simpl; [assumption|].
  inversion Hl; subst. apply IH; auto.
  rewrite add_spec. apply add_nonneg; assumption.
Qed.

Lemma get_mse_nonneg t a :
  Forall (fun v => nonneg (Prim2SF v) = true) (get_mse t a).
Proof.
  unfold get_mse. apply Forall_forall. intros v Hv.
  apply in_map_iff in Hv as [[e x] [<- _]].
  unfold powi2. rewrite mul_spec. apply sign_false_nonneg, mul_self_sign_false.
Qed.

Lemma usize_as_f64_sign_false n : sign_false (Prim2SF (usize_as_f64 n)) = true.
Proof. apply of_uint63_sign_false. Qed.

Lemma record_mse_ok x v :
  record_mse x = Ok v -> v = (f64_sum x / usize_as_f64 (length x))%float.
Proof.
  unfold record_mse, rbind.
  destruct (convert (length x)) as [l|e] eqn:Hc; [|discriminate].
  apply convert_ok in Hc as ->. intros H. apply checked_divide_ok in H. tauto.
Qed.

Lemma record_mse_nonneg t a v :
  record_mse (get_mse t a) = Ok v -> nonneg (Prim2SF v) = true.
Proof.
  intros H. apply record_mse_ok in H as ->. rewrite div_spec.
  apply div_nonneg; [|apply usize_as_f64_sign_false].
  apply fold_add_nonneg; [apply get_mse_nonneg|reflexivity].
Qed.

Lemma record_mse_empty : record_mse [] = Err ResultNaN.
Proof. vm_compute. reflexivity. Qed.

End FitnessFacts.

Module RngFacts.
Import Rng.

Lemma length_list_set {A} (l : list A) i x : length (list_set l i x) = length l.
Proof.
  revert i; induction l as [|y l IH]; intros [|i]; simpl; auto.
Qed.

Lemma nth_error_list_set {A} (l : list A) i x n :
  nth_error (list_set l i x) n =
  if (n =? i)%nat then match nth_error l n with Some _ => Some x | None => None end
  else nth_error l n.
Proof.
  revert i n; induction l as [|y l IH]; intros [|i] [|n]; simpl; auto;
    destruct (n =? i)%nat; reflexivity.
Qed.

Lemma In_list_set {A} (l : list A) i x y :
  In y (list_set l i x) -> In y l \/ y = x.
Proof.
  revert i; induction l as [|z l IH]; intros [|i]; simpl; try tauto.
  - intros [<-|H]; tauto.
  - intros [<-|H]; [tauto|]. destruct (IH i H); tauto.
Qed.

Lemma swap_Permutation l i j :
  (i < length l)%nat -> (j < length l)%nat -> Permutation l (swap l i j).
Proof.
  intros Hi Hj. apply Permutation_nth_error. split.
  { unfold swap. rewrite !length_list_set. reflexivity. }
  exists (fun n => if (n =? j)%nat then i else if (n =? i)%nat then j else n).
  split.
  - intros x y. destruct (Nat.eqb_spec x j), (Nat.eqb_spec x i),
      (Nat.eqb_spec y j), (Nat.eqb_spec y i); lia.
  - intros n. unfold swap.
    rewrite nth_error_list_set, nth_error_list_set.
    assert (Ei := nth_error_nth' l 0%nat Hi). assert (Ej := nth_error_nth' l 0%nat Hj).
    destruct (Nat.eqb_spec n j) as [->|Hnj];
      destruct (Nat.eqb_spec j i) as [Eji|Hji];
      try destruct (Nat.eqb_spec n i) as [->|Hni];
      try rewrite Ei; try rewrite Ej; subst; try rewrite Ei; try reflexivity;
      try (rewrite Nat.eqb_refl; rewrite Ej; reflexivity); try lia.
Qed.

Lemma gen_range_usize_spec lo hi r :
  (lo < hi)%nat ->
  exists n, gen_range_usize lo hi r = Ret n (Streams.tl r) /\ (lo <= n < hi)%nat.
Proof.
  intros H. unfold gen_range_usize.
  destruct (Nat.leb_spec hi lo); [lia|].
  eexists; split; [reflexivity|].
  pose proof (Nat.mod_upper_bound (N.to_nat (draw_int (Streams.hd r))) (hi - lo)).
  lia.
Qed.

Lemma gen_range_usize_empty lo hi r :
  (hi <= lo)%nat -> gen_range_usize lo hi r = Panic.
Proof.
  intros H. unfold gen_range_usize. destruct (Nat.leb_spec hi lo); [reflexivity|lia].
Qed.

(** [shuffle] always returns, with a permutation of its input. *)
Lemma shuffle_down_Permutation k l r :
  (k < length l \/ k = 0)%nat ->
  exists l' r', shuffle_down k l r = Ret l' r' /\ Permutation l l'.
Proof.
  revert l r; induction k as [|k IH]; intros l r Hk.
  - exists l, r. split; reflexivity.
  - simpl. unfold bind.
    destruct (gen_range_usize_spec 0 (S (S k)) r) as [j [-> Hj]]; [lia|].
    destruct (IH (swap l (S k) j) (Streams.tl r)) as [l' [r' [Heq HP]]].
    { left. unfold swap. rewrite !length_list_set. lia. }
    exists l', r'. split; [exact Heq|].
    eapply perm_trans; [|exact HP]. apply swap_Permutation; lia.
Qed.

Lemma shuffle_Permutation l r :
  exists l' r', shuffle l r = Ret l' r' /\ Permutation l l'.
Proof.
  apply shuffle_down_Permutation. destruct l; simpl; lia.
Qed.

Lemma mapM_index {A} (c : list A) (d : A) ids r :
  Forall (fun i => i < length c)%nat ids ->
  mapM (index c) ids r = Ret (map (fun i => nth i c d) ids) r.
Proof.
  revert r; induction ids as [|i ids IH]; intros r H; [reflexivity|].
  inversion H as [|? ? Hi Hids]; subst.
  simpl. unfold bind, index.
  rewrite (nth_error_nth' c d) by exact Hi. unfold ret.
  rewrite IH by exact Hids. reflexivity.
Qed.

Lemma In_firstn' {A} n (l : list A) x : In x (firstn n l) -> In x l.
Proof.
  intros H. rewrite <- (firstn_skipn n l). apply in_or_app. left. exact H.
Qed.

(** ** [mapM] and [combine] *)

Lemma mapM_length {A B} (f : A -> M B) l : forall r ys r',
  mapM f l r = Ret ys r' -> length ys = length l.
Proof.
  induction l as [|x l IH]; intros r ys r' H.
  - inversion H; reflexivity.
  - simpl in H. unfold bind in H.
    destruct (f x r) as [y r1| |]; try discriminate.
    destruct (mapM f l r1) as [ys' r2| |] eqn:E; try discriminate.
    inversion H; subst. simpl. f_equal. exact (IH _ _ _ E).
Qed.

Lemma mapM_nth_error {A B} (f : A -> M B) l : forall r ys r' i x y,
  mapM f l r = Ret ys r' -> nth_error l i = Some x -> nth_error ys i = Some y ->
  exists r1 r2, f x r1 = Ret y r2.
Proof.
  induction l as [|x0 l IH]; intros r ys r' i x y H Hx Hy.
  - destruct i; discriminate.
  - simpl in H. unfold bind in H.
    destruct (f x0 r) as [y0 r1| |] eqn:E0; try discriminate.
    destruct (mapM f l r1) as [ys' r2| |] eqn:E; try discriminate.
    inversion H; subst. destruct i as [|i]; simpl in Hx, Hy.
    + inversion Hx; inversion Hy; subst. exists r, r1. exact E0.
    + exact (IH _ _ _ _ _ _ E Hx Hy).
Qed.

Lemma mapM_total {A B} (f : A -> M B) l :
  (forall x r, exists y r', f x r = Ret y r') ->
  forall r, exists ys r', mapM f l r = Ret ys r'.
Proof.
  intros Hf. induction l as [|x l IH]; intros r.
  - exists [], r. reflexivity.
  - simpl. unfold bind.
    destruct (Hf x r) as [y [r1 ->]]. destruct (IH r1) as [ys [r2 ->]].
    exists (y :: ys), r2. reflexivity.
Qed.

Lemma nth_error_combine {A B} (l : list A) (l' : list B) i :
  nth_error (combine l l') i =
  match nth_error l i, nth_error l' i with
  | Some x, Some y => Some (x, y)
  | _, _ => None
  end.
Proof.
  revert l' i; induction l as [|x l IH]; intros [|y l'] [|i]; simpl; auto.
  destruct (nth_error l i); reflexivity.
Qed.

Lemma skipn_length_app {A} (l1 l2 : list A) : skipn (length l1) (l1 ++ l2) = l2.
Proof. induction l1; simpl; auto. Qed.

Lemma firstn_length_app {A} (l1 l2 : list A) : firstn (length l1) (l1 ++ l2) = l1.
Proof. induction l1; simpl; f_equal; auto. Qed.

Lemma map_nth_seq {A} (c : list A) (d : A) :
  map (fun i => nth i c d) (seq 0 (length c)) = c.
Proof.
  induction c as [|x c IH]; [reflexivity|].
  simpl. f_equal. rewrite <- seq_shift, map_map. exact IH.
Qed.

End RngFacts.

Module TournamentFacts.
Import Rng RngFacts Tournament TournamentOrder F64 F64Facts.

Section Facts.
Variable G : Type.

(** The sample is drawn without replacement from the pool: it is a
    permutation of a sub-multiset of the candidates, of the tournament size. *)
Lemma tournament_iter_spec (ts : nat) (c : list (CompareRecord G)) r :
  exists s r' ids,
    tournament_iter ts c r = Ret s r' /\
    Permutation (seq 0 (length c)) ids /\
    (forall d, s = map (fun i => nth i c d) (firstn (tournament_size ts c) ids)).
Proof.
  unfold tournament_iter, bind.
  destruct (shuffle_Permutation (seq 0 (length c)) r) as [ids [r1 [-> HP]]].
  destruct c as [|c0 cs] eqn:Hc.
  - simpl in HP. apply Permutation_nil in HP as ->.
    exists [], r1, []. simpl. rewrite firstn_nil. split; [reflexivity|].
    split; [constructor|]. intros d. reflexivity.
  - rewrite <- Hc in *.
    assert (Hall : Forall (fun i => i < length c)%nat
                     (firstn (tournament_size ts c) ids)).
    { apply Forall_forall. intros i Hi. apply In_firstn', (Permutation_in _ (Permutation_sym HP)) in Hi.
      apply in_seq in Hi. lia. }
    exists (map (fun i => nth i c c0) (firstn (tournament_size ts c) ids)), r1, ids.
    split; [apply mapM_index; exact Hall|].
    split; [exact HP|].
    intros d. apply map_ext_in. intros i Hi.
    rewrite Forall_forall in Hall. apply nth_indep, Hall, Hi.
Qed.

Lemma tournament_iter_nil ts r : tournament_iter ts (@nil (CompareRecord G)) r = Ret [] r.
Proof.
  unfold tournament_iter. cbn. rewrite firstn_nil. reflexivity.
Qed.

Lemma length_tournament_sample ts (c : list (CompareRecord G)) r s r' :
  tournament_iter ts c r = Ret s r' -> length s = tournament_size ts c.
Proof.
  destruct (tournament_iter_spec ts c r) as [s0 [r0 [ids [Heq [HP Hs]]]]].
  rewrite Heq. intros H. inversion H; subst.
  destruct c as [|c0 cs]; 
    [rewrite tournament_iter_nil in Heq; inversion Heq; subst;
     unfold tournament_size; simpl; lia|].
  rewrite (Hs c0), length_map, length_firstn.
  apply Permutation_length in HP. rewrite length_seq in HP.
  unfold tournament_size. lia.
Qed.

(** With a tournament at least as large as the pool, the sample is the whole
    pool in shuffled order. *)
Lemma tournament_sample_Permutation ts (c : list (CompareRecord G)) r s r' :
  (length c <= ts)%nat -> tournament_iter ts c r = Ret s r' -> Permutation c s.
Proof.
  intros Hts.
  destruct (tournament_iter_spec ts c r) as [s0 [r0 [ids [Heq [HP Hs]]]]].
  rewrite Heq. intros H. inversion H; subst.
  destruct c as [|c0 cs] eqn:Hc; [rewrite tournament_iter_nil in Heq; inversion Heq; reflexivity|].
  rewrite <- Hc in *. rewrite (Hs c0).
  assert (Hlen : tournament_size ts c = length ids).
  { apply Permutation_length in HP. rewrite length_seq in HP.
    unfold tournament_size. lia. }
  rewrite Hlen, firstn_all.
  rewrite <- (map_nth_seq c c0) at 1. apply Permutation_map, HP.
Qed.

Lemma fold_select_step_app (s : list (CompareRecord G)) x :
  fold_left select_step (s ++ [x]) None = select_step (fold_left select_step s None) x.
Proof. rewrite fold_left_app. reflexivity. Qed.

Lemma fold_select_step_some (s : list (CompareRecord G)) :
  s <> [] -> exists w, fold_left select_step s None = Some w.
Proof.
  induction s as [|x s _] using rev_ind; [congruence|].
  intros _. rewrite fold_select_step_app. eexists; reflexivity.
Qed.

Lemma fold_select_step_nil : fold_left select_step (@nil (CompareRecord G)) None = None.
Proof. reflexivity. Qed.

Lemma fold_select_step_last_min (s : list (CompareRecord G)) w :
  Forall not_nan_rec s ->
  fold_left select_step s None = Some w -> last_min s w.
Proof.
  revert w. induction s as [|x s IH] using rev_ind; [discriminate|].
  intros w Hnan Hw. rewrite fold_select_step_app in Hw.
  apply Forall_app in Hnan as [Hs Hx]. inversion Hx as [|? ? Hxn _]; subst.
  destruct (fold_left select_step s None) as [w0|] eqn:Hw0.
  - specialize (IH w0 Hs eq_refl) as [s1 [s2 [-> [H1 H2]]]].
    apply Forall_app in Hs as [Hs1 Hs2]. inversion Hs2 as [|? ? Hw0n Hs2']; subst.
    unfold select_step in Hw. unfold not_nan_rec in *.
    rewrite (compare_lex _ _ Hw0n Hxn) in Hw.
    destruct (lex (kx (fitness w0)) (kx (fitness x))) eqn:Hc; inversion Hw; subst.
    + (* equal: the candidate takes over *)
      exists (s1 ++ w0 :: s2), []. rewrite <- app_assoc. split; [reflexivity|].
      split; [|constructor].
      apply Forall_app; split; [|constructor].
      * apply Forall_forall. intros y Hy. rewrite Forall_forall in H1, Hs1.
        specialize (H1 y Hy). unfold fit_le in *.
        apply leb_lex in H1; [|assumption|apply Hs1; assumption].
        apply leb_lex; [assumption|apply Hs1; assumption|].
        apply (lex_le_trans _ (kx (fitness w0))); [|assumption].
        rewrite lex_antisym, Hc. discriminate.
      * unfold fit_le. apply leb_lex; [assumption|assumption|].
        rewrite lex_antisym, Hc. discriminate.
      * apply Forall_forall. intros y Hy. rewrite Forall_forall in H2, Hs2'.
        specialize (H2 y Hy). unfold fit_le, fit_lt in *.
        apply ltb_lex in H2; [|assumption|apply Hs2'; assumption].
        apply leb_lex; [assumption|apply Hs2'; assumption|].
        apply (lex_le_trans _ (kx (fitness w0))).
        -- rewrite lex_antisym, Hc. discriminate.
        -- rewrite H2. discriminate.
    + (* the winner stays *)
      exists s1, (s2 ++ [x]). rewrite <- app_assoc. split; [reflexivity|].
      split; [assumption|]. apply Forall_app; split; [assumption|].
      constructor; [|constructor]. unfold fit_lt. apply ltb_lex; assumption.
    + (* the candidate is better *)
      exists (s1 ++ w0 :: s2), []. rewrite <- app_assoc. split; [reflexivity|].
      split; [|constructor].
      assert (Hxw : lex (kx (fitness w)) (kx (fitness w0)) = Lt)
        by (rewrite lex_antisym, Hc; reflexivity).
      apply Forall_app; split; [|constructor].
      * apply Forall_forall. intros y Hy. rewrite Forall_forall in H1, Hs1.
        specialize (H1 y Hy). unfold fit_le in *.
        apply leb_lex in H1; [|assumption|apply Hs1; assumption].
        apply leb_lex; [assumption|apply Hs1; assumption|].
        apply (lex_le_trans _ (kx (fitness w0))); [rewrite Hxw; discriminate|assumption].
      * unfold fit_le. apply leb_lex; [assumption|assumption|]. rewrite Hxw. discriminate.
      * apply Forall_forall. intros y Hy. rewrite Forall_forall in H2, Hs2'.
        specialize (H2 y Hy). unfold fit_le, fit_lt in *.
        apply ltb_lex in H2; [|assumption|apply Hs2'; assumption].
        apply leb_lex; [assumption|apply Hs2'; assumption|].
        apply (lex_le_trans _ (kx (fitness w0))); [rewrite Hxw; discriminate|].
        rewrite H2. discriminate.
  - destruct s using rev_ind; [|rewrite fold_select_step_app in Hw0; discriminate].
    simpl in Hw. inversion Hw; subst.
    exists [], []. split; [reflexivity|]. split; constructor.
Qed.

Lemma ltb_not_nan_r (x y : float) :
  (x <? y)%float = true -> PrimFloat.is_nan y = false.
Proof.
  intros Hy. destruct (PrimFloat.is_nan y) eqn:E; [|reflexivity].
  rewrite ltb_spec in Hy. rewrite is_nan_Prim2SF in E. unfold SFltb in Hy.
  destruct (Prim2SF y); try discriminate.
  destruct (Prim2SF x); discriminate.
Qed.

Lemma last_min_le_all (s : list (CompareRecord G)) w :
  Forall not_nan_rec s -> last_min s w -> Forall (fit_le w) s.
Proof.
  intros Hnan [s1 [s2 [-> [H1 H2]]]].
  apply Forall_app in Hnan as [_ Hw]. inversion Hw as [|? ? Hwn _]; subst.
  apply Forall_app; split; [assumption|]. constructor.
  - unfold fit_le. apply leb_lex; [assumption|assumption|]. rewrite lex_refl. discriminate.
  - eapply Forall_impl; [|exact H2]. intros y Hy. unfold fit_le, fit_lt in *.
    assert (Hyn := ltb_not_nan_r _ _ Hy).
    apply ltb_lex in Hy; [|assumption|assumption].
    apply leb_lex; [assumption|assumption|]. rewrite Hy. discriminate.
Qed.

End Facts.

End TournamentFacts.

Module InjectFacts.
Import Rng RngFacts Inject.

Section Facts.
Variable G : Type.

Lemma inject_loop_spec (e : list G) : forall (g : list G) n r,
  length g = n -> (0 < n)%nat \/ e = [] ->
  exists g' r', inject_loop G g n e r = Ret g' r' /\ length g' = n /\
    (forall i x, nth_error g' i = Some x -> nth_error g i = Some x \/ In x e).
Proof.
  induction e as [|y e IH]; intros g n r Hlen Hpre.
  - exists g, r. split; [reflexivity|]. split; [exact Hlen|]. intros; left; assumption.
  - destruct Hpre as [Hn|Hnil]; [|discriminate].
    simpl. unfold bind.
    destruct (gen_range_usize_spec 0 n r Hn) as [j [-> Hj]].
    destruct (IH (list_set g j y) n (Streams.tl r)) as [g' [r' [Heq [Hlen' Hin]]]].
    + rewrite length_list_set. exact Hlen.
    + left. exact Hn.
    + exists g', r'. split; [exact Heq|]. split; [exact Hlen'|].
      intros i x Hx. destruct (Hin i x Hx) as [Hs|Hs]; [|right; right; exact Hs].
      rewrite nth_error_list_set in Hs.
      destruct (i =? j)%nat.
      * destruct (nth_error g i); inversion Hs; subst. right; left; reflexivity.
      * left. exact Hs.
Qed.

Lemma inject_loop_panic (g : list G) y e r :
  inject_loop G g 0 (y :: e) r = Panic.
Proof.
  simpl. unfold bind. rewrite gen_range_usize_empty by lia. reflexivity.
Qed.

End Facts.

End InjectFacts.

Module RunFacts.
Import Rng RngFacts Fitness Tournament Inject Run.

Section Facts.
Variable G : Type.
Variable predict_of : G -> Predict.

Lemma inject_loop_length (e : list G) : forall (g : list G) n r g' r',
  inject_loop G g n e r = Ret g' r' -> length g' = length g.
Proof.
  induction e as [|y e IH]; intros g n r g' r' H.
  - inversion H; reflexivity.
  - simpl in H. unfold bind in H.
    destruct (gen_range_usize 0 n r) as [j r1| |]; try discriminate.
    rewrite (IH _ _ _ _ _ H). apply length_list_set.
Qed.

(** The breed loop, when it returns, has filled the next generation up to
    [gen_size] exactly. *)
Lemma breed_loop_length (r : Run G) fuel : forall parents n next rng out rng',
  (length next <= n)%nat ->
  breed_loop predict_of r fuel parents n next rng = Ret out rng' ->
  length out = n.
Proof.
  induction fuel as [|fuel IH]; intros parents n next rng out rng' Hle H;
    simpl in H; destruct (Nat.ltb_spec (length next) n) as [Hlt|Hge].
  - discriminate.
  - inversion H; subst. lia.
  - unfold bind in H.
    destruct (select (tournament_size r) parents rng) as [[left'|] r1| |];
      try discriminate.
    + destruct (select (tournament_size r) parents r1) as [[right'|] r2| |];
        try discriminate.
      * destruct (breed _ (breeder r) (predict left') (predict right') r2)
          as [child r3| |]; try discriminate.
        destruct (check (fitness_calc r) (predict_of child)).
        -- refine (IH _ _ _ _ _ _ _ H). rewrite length_app. simpl. lia.
        -- apply (IH _ _ _ _ _ _ Hle H).
      * apply (IH _ _ _ _ _ _ Hle H).
    + destruct (select (tournament_size r) parents r1) as [o r2| |];
        try discriminate.
      apply (IH _ _ _ _ _ _ Hle H).
  - unfold ret in H. inversion H; subst. lia.
Qed.

(** Whenever [Run::run] returns, its output has as many genomes as the
    ranked pool, which holds only the genomes whose fitness could be
    computed. *)
Lemma run_length (r : Run G) fuel generation rng out rng' :
  run predict_of r fuel generation rng = Ret out rng' ->
  length out = length (rank_generation predict_of r generation).
Proof.
  unfold run, breed_generation, bind, ret.
  destruct (new_generation predict_of r fuel (rank_generation predict_of r generation) rng)
    as [next r1| |] eqn:Hn; try discriminate.
  intros H. unfold genomes in H. apply inject_loop_length in H.
  rewrite H. unfold unrank_generation. rewrite length_map.
  apply (breed_loop_length r fuel (rank_generation predict_of r generation) _ [] rng next r1);
    [simpl; lia|exact Hn].
Qed.

Lemma rank_generation_all_fail (r : Run G) generation :
  Forall (fun g => exists e, create_compare_record predict_of (fitness_calc r) g = Err e)
    generation ->
  rank_generation predict_of r generation = [].
Proof.
  unfold rank_generation. induction 1 as [|g gs [e He] _ IH]; [reflexivity|].
  simpl. rewrite He. exact IH.
Qed.

End Facts.

End RunFacts.

Module FarmFacts.
Import Rng RngFacts F64 F64Facts Farm.

(** ** Order and equality of [f64] on non-NaN values *)

Lemma lex_eq a b : lex a b = Eq -> a = b.
Proof.
  destruct a as [[a1 a2] a3], b as [[b1 b2] b3]; simpl.
  destruct (Z.compare_spec a1 b1); try discriminate;
    destruct (Z.compare_spec a2 b2); try discriminate;
    destruct (Z.compare_spec a3 b3); try discriminate; subst; reflexivity.
Qed.

Lemma eqb_lex (x y : float) :
  PrimFloat.is_nan x = false -> PrimFloat.is_nan y = false ->
  (x =? y)%float = true <-> lex (kx x) (kx y) = Eq.
Proof.
  intros Hx Hy. rewrite eqb_spec. unfold SFeqb, kx.
  rewrite SFcompare_key by (apply not_nan_of; assumption).
  destruct (lex _ _); split; congruence.
Qed.

Lemma leb_refl (x : float) : PrimFloat.is_nan x = false -> (x <=? x)%float = true.
Proof. intros Hx. apply leb_lex; [assumption|assumption|]. rewrite lex_refl. discriminate. Qed.

Lemma eqb_refl' (x : float) : PrimFloat.is_nan x = false -> (x =? x)%float = true.
Proof. intros Hx. apply eqb_lex; [assumption|assumption|]. apply lex_refl. Qed.

Lemma eqb_sym' (x y : float) :
  PrimFloat.is_nan x = false -> PrimFloat.is_nan y = false ->
  (x =? y)%float = true -> (y =? x)%float = true.
Proof.
  intros Hx Hy H. apply eqb_lex in H; [|assumption|assumption].
  apply eqb_lex; [assumption|assumption|]. rewrite lex_antisym, H. reflexivity.
Qed.

Lemma ltb_leb (x y : float) : (x <? y)%float = true -> (x <=? y)%float = true.
Proof.
  rewrite ltb_spec, leb_spec. unfold SFltb, SFleb.
  destruct (SFcompare _ _) as [[]|]; congruence.
Qed.

Lemma not_ltb_leb (x y : float) :
  PrimFloat.is_nan x = false -> PrimFloat.is_nan y = false ->
  (x <? y)%float = false -> (y <=? x)%float = true.
Proof.
  intros Hx Hy H. apply leb_lex; [assumption|assumption|].
  rewrite lex_antisym. intros Hc.
  destruct (lex (kx x) (kx y)) eqn:E; try discriminate.
  apply (ltb_lex x y Hx Hy) in E. congruence.
Qed.

(** [is_finite] on the [SpecFloat] model. *)
Lemma is_finite_Prim2SF (x : float) :
  PrimFloat.is_finite x =
  match Prim2SF x with S754_zero _ | S754_finite _ _ _ => true | _ => false end.
Proof.
  unfold PrimFloat.is_finite, PrimFloat.is_infinity.
  rewrite is_nan_Prim2SF, eqb_spec, abs_spec.
  destruct (Prim2SF x) as [s|s| |s m e]; [| destruct s | |]; reflexivity.
Qed.

Lemma finite_not_nan (x : float) :
  PrimFloat.is_finite x = true -> PrimFloat.is_nan x = false.
Proof.
  rewrite is_finite_Prim2SF, is_nan_Prim2SF. destruct (Prim2SF x); easy.
Qed.

Lemma finite_nan_or_infinite (x : float) :
  PrimFloat.is_finite x = true -> nan_or_infinite x = false.
Proof.
  unfold PrimFloat.is_finite, nan_or_infinite. destruct (_ || _); easy.
Qed.

(** Two equal finite values differ by a zero. *)
Lemma eqb_sub_zero (x y : float) :
  PrimFloat.is_finite x = true -> PrimFloat.is_nan y = false ->
  (x =? y)%float = true -> exists s, Prim2SF (x - y)%float = S754_zero s.
Proof.
  intros Hx Hy H. assert (Hxn := finite_not_nan x Hx).
  apply eqb_lex in H; [|assumption|assumption]. apply lex_eq in H.
  rewrite sub_spec. unfold kx in H. rewrite is_finite_Prim2SF in Hx.
  rewrite is_nan_Prim2SF in Hy.
  destruct (Prim2SF x) as [sx|sx| |sx mx ex]; try discriminate;
    destruct (Prim2SF y) as [sy|sy| |sy my ey]; try discriminate;
    destruct sx, sy; simpl in H; try discriminate;
    try (eexists; reflexivity);
    injection H as He Hm; assert (ex = ey) by lia; assert (mx = my) by lia; subst;
    unfold SF64sub, SFsub; rewrite Z.sub_diag; eexists; reflexivity.
Qed.

(** ** [f64::min] and [f64::max] *)

Lemma f64_min_cases a b :
  PrimFloat.is_nan a = false -> PrimFloat.is_nan b = false ->
  f64_min a b = a \/ f64_min a b = b.
Proof.
  intros Ha Hb. unfold f64_min. rewrite Ha, Hb. destruct (a <? b)%float; auto.
Qed.

Lemma f64_max_cases a b :
  PrimFloat.is_nan a = false -> PrimFloat.is_nan b = false ->
  f64_max a b = a \/ f64_max a b = b.
Proof.
  intros Ha Hb. unfold f64_max. rewrite Ha, Hb. destruct (b <? a)%float; auto.
Qed.

Lemma f64_min_le_max a b :
  PrimFloat.is_nan a = false -> PrimFloat.is_nan b = false ->
  (f64_min a b <=? f64_max a b)%float = true.
Proof.
  intros Ha Hb. unfold f64_min, f64_max. rewrite Ha, Hb.
  destruct (a <? b)%float eqn:Hab.
  - destruct (b <? a)%float eqn:Hba; [|apply ltb_leb; exact Hab].
    apply leb_refl; assumption.
  - destruct (b <? a)%float eqn:Hba; [apply ltb_leb; exact Hba|].
    apply leb_refl; assumption.
Qed.

Lemma abs_zero_lt_epsilon (d : float) s :
  Prim2SF d = S754_zero s -> (PrimFloat.abs d <? f64_epsilon)%float = true.
Proof.
  intros H. rewrite ltb_spec, abs_spec, H. vm_compute. reflexivity.
Qed.

Lemma gen_range_f64_incl_spec lo hi r :
  (lo <=? hi)%float = true -> PrimFloat.is_finite ((hi - lo) / max_rand)%float = true ->
  exists u, gen_range_f64_incl lo hi r = Ret u (Streams.tl r) /\
    (lo <=? u)%float = true /\ (u <=? hi)%float = true.
Proof.
  intros Hle Hfin. unfold gen_range_f64_incl. rewrite Hle, Hfin. simpl.
  destruct ((lo <=? draw_float (Streams.hd r))%float &&
            (draw_float (Streams.hd r) <=? hi))%float eqn:E.
  - apply andb_prop in E as [E1 E2]. eexists; split; [reflexivity|]. split; assumption.
  - eexists; split; [reflexivity|]. split; [|exact Hle].
    apply leb_refl. destruct (PrimFloat.is_nan lo) eqn:En; [|reflexivity].
    rewrite leb_spec, is_nan_Prim2SF in *. unfold SFleb in Hle.
    destruct (Prim2SF lo); discriminate.
Qed.

(** ** Finiteness of [scale] in [UniformFloat::new_inclusive] *)

Lemma Prim2SF_max_rand : Prim2SF max_rand = S754_finite false 9007199254740990 (-53).
Proof. vm_compute. reflexivity. Qed.

(** The [SpecFloat] division by [max_rand] of a value below [2^-52] in
    magnitude rounds to a finite value. *)

Lemma digits2_pos_size p : digits2_pos p = Pos.size p.
Proof. induction p; simpl; congruence. Qed.

Lemma Zdigits2_le m K : 0 <= m < 2 ^ K -> Zdigits2 m <= K.
Proof.
  intros [H0 H1].
  assert (0 <= K) by (destruct (Z.neg_nonneg_cases K) as [HK|HK];
    [rewrite Z.pow_neg_r in H1 by exact HK; lia|exact HK]).
  destruct m as [|p|p]; [simpl; lia| |lia].
  - unfold Zdigits2.
    rewrite digits2_pos_size.
    pose proof (Pos.size_le p) as Hle.
    assert (Hz : 2 ^ Zpos (Pos.size p) <= 2 * Zpos p).
    { rewrite <- Pos2Z.inj_pow, <- Pos2Z.inj_xO. apply Pos2Z.pos_le_pos. exact Hle. }
    destruct (Z.le_gt_cases (Zpos (Pos.size p)) K) as [|Hgt]; [assumption|].
    assert (2 ^ (K + 1) <= 2 ^ Zpos (Pos.size p)) by (apply Z.pow_le_mono_r; lia).
    rewrite Z.pow_add_r in * by lia. lia.
Qed.

Lemma shr_1_m mrs : 0 <= shr_m mrs -> shr_m (shr_1 mrs) = Z.div2 (shr_m mrs).
Proof.
  destruct mrs as [m r s]; simpl. destruct m as [|[p|p|]|p]; simpl; lia || reflexivity.
Qed.

Lemma iter_shr_1_m p : forall mrs, 0 <= shr_m mrs ->
  shr_m (iter_pos shr_1 p mrs) = Z.shiftr (shr_m mrs) (Zpos p).
Proof.
  induction p as [p IH|p IH|]; intros mrs H; simpl.
  - assert (H1 : 0 <= shr_m (shr_1 mrs)) by (rewrite shr_1_m, Z.div2_spec by exact H; apply Z.shiftr_nonneg; exact H).
    assert (H2 : 0 <= shr_m (iter_pos shr_1 p (shr_1 mrs))) by (rewrite IH by exact H1; apply Z.shiftr_nonneg; exact H1).
    rewrite IH, IH, shr_1_m, Z.div2_spec, !Z.shiftr_shiftr by (lia || assumption).
    f_equal. lia.
  - assert (H2 : 0 <= shr_m (iter_pos shr_1 p mrs)) by (rewrite IH by exact H; apply Z.shiftr_nonneg; exact H).
    rewrite IH, IH, Z.shiftr_shiftr by (lia || assumption). f_equal. lia.
  - rewrite shr_1_m, Z.div2_spec by exact H. reflexivity.
Qed.

Lemma shiftr_bound m K p : 0 <= m < 2 ^ K -> 0 <= K -> 0 <= p ->
  Z.shiftr m p < 2 ^ Z.max (K - p) 0.
Proof.
  intros [H0 H1] HK Hp. rewrite Z.shiftr_div_pow2 by exact Hp.
  destruct (Z.le_gt_cases p K).
  - rewrite Z.max_l by lia. apply Z.div_lt_upper_bound; [apply Z.pow_pos_nonneg; lia|].
    rewrite <- Z.pow_add_r by lia. replace (p + (K - p)) with K by lia. exact H1.
  - rewrite Z.max_r by lia. rewrite Z.div_small; [simpl; lia|]. split; [exact H0|].
    apply (Z.lt_le_trans _ _ _ H1). apply Z.pow_le_mono_r; lia.
Qed.

Lemma fexp_eq e : SpecFloat.fexp 53 1024 e = Z.max (e - 53) (-1074).
Proof. reflexivity. Qed.

Lemma shr_record_of_loc_m m l : shr_m (shr_record_of_loc m l) = m.
Proof. destruct l as [|[]]; reflexivity. Qed.

(** One [shr_fexp] step keeps a mantissa below [2 ^ K] with [K + e <= c]
    and a non-positive exponent. *)
Lemma shr_fexp_stage m e l K c :
  0 <= m < 2 ^ K -> 0 <= K -> e <= 0 -> K + e <= c -> 0 <= c <= 53 ->
  0 <= shr_m (fst (shr_fexp 53 1024 m e l)) /\ snd (shr_fexp 53 1024 m e l) <= 0 /\
  exists K', 0 <= K' /\ shr_m (fst (shr_fexp 53 1024 m e l)) < 2 ^ K' /\
    K' + snd (shr_fexp 53 1024 m e l) <= c.
Proof.
  intros Hm HK He HKe Hc. unfold shr_fexp. rewrite fexp_eq.
  pose proof (Zdigits2_le m K Hm) as HD.
  assert (HD0 : 0 <= Zdigits2 m) by (destruct m; simpl; lia).
  destruct (Z.max (Zdigits2 m + e - 53) (-1074) - e) as [|p|p] eqn:En; simpl.
  - rewrite shr_record_of_loc_m. split; [lia|]. split; [lia|]. exists K. lia.
  - rewrite iter_shr_1_m, shr_record_of_loc_m by (rewrite shr_record_of_loc_m; lia).
    split; [apply Z.shiftr_nonneg; lia|]. split; [lia|].
    exists (Z.max (K - Zpos p) 0). split; [lia|]. split; [apply shiftr_bound; lia|]. lia.
  - rewrite shr_record_of_loc_m. split; [lia|]. split; [lia|]. exists K. lia.
Qed.

Lemma round_nearest_even_bound m l : 0 <= m -> m <= round_nearest_even m l <= m + 1.
Proof. intros H. destruct l as [|[]]; simpl; try destruct (Z.even m); lia. Qed.

Lemma binary_round_aux_finite sx m e l K :
  0 <= m < 2 ^ K -> 0 <= K -> e <= 0 -> K + e <= 1 ->
  match binary_round_aux 53 1024 sx m e l with
  | S754_zero _ | S754_finite _ _ _ => True | _ => False end.
Proof.
  intros Hm HK He HKe. unfold binary_round_aux.
  destruct (shr_fexp_stage m e l K 1 Hm HK He HKe ltac:(lia)) as [H0 [He1 [K1 [HK1 [Hlt HKe1]]]]].
  destruct (shr_fexp 53 1024 m e l) as [mrs1 e1]. simpl in *.
  pose proof (round_nearest_even_bound (shr_m mrs1) (loc_of_shr_record mrs1) H0) as Hr.
  assert (Hp : 2 ^ K1 < 2 ^ (K1 + 1)) by (apply Z.pow_lt_mono_r; lia).
  destruct (shr_fexp_stage (round_nearest_even (shr_m mrs1) (loc_of_shr_record mrs1)) e1 loc_Exact
              (K1 + 1) 2 ltac:(lia) ltac:(lia) He1 ltac:(lia) ltac:(lia))
    as [H2 [He2 _]].
  destruct (shr_fexp 53 1024 _ e1 loc_Exact) as [mrs2 e2]. simpl in *.
  destruct (shr_m mrs2) as [|p|p]; [exact I| |lia].
  replace (e2 <=? 971) with true by (symmetry; apply Z.leb_le; lia). exact I.
Qed.

Lemma SFdiv_max_rand_finite s m e :
  SpecFloat.valid_binary 53 1024 (S754_finite s m e) = true -> Zpos (Pos.size m) + e <= -52 ->
  match SFdiv 53 1024 (S754_finite s m e) (Prim2SF max_rand) with
  | S754_zero _ | S754_finite _ _ _ => True | _ => False end.
Proof.
  intros Hv Hd. unfold valid_binary, bounded, canonical_mantissa in Hv.
  apply andb_prop in Hv as [Hc _]. apply Z.eqb_eq in Hc. rewrite fexp_eq, digits2_pos_size in Hc.
  rewrite Prim2SF_max_rand.
  unfold SFdiv, SFdiv_core_binary. simpl Zdigits2. rewrite digits2_pos_size, fexp_eq.
  set (e' := Z.min _ (e - -53)).
  assert (He' : e' <= e + 53) by (unfold e'; lia).
  pose proof (Pos.size_gt m) as Hgt.
  assert (Hm : Zpos m < 2 ^ Zpos (Pos.size m)) by (rewrite <- Pos2Z.inj_pow; exact Hgt).
  assert (Hsz : 1 <= Zpos (Pos.size m)) by lia.
  destruct (e - -53 - e') as [|p|p] eqn:Es.
  - destruct (Z.div_eucl (Zpos m) 9007199254740990) as [q r] eqn:E.
    assert (Hq : q = Zpos m / 9007199254740990) by (unfold Z.div; rewrite E; reflexivity).
    assert (0 <= q <= Zpos m) by (rewrite Hq; split; [apply Z.div_pos|apply Z.div_le_upper_bound]; lia).
    apply (binary_round_aux_finite _ _ _ _ (Zpos (Pos.size m))); lia.
  - destruct (Z.div_eucl (Z.shiftl (Zpos m) (Zpos p)) 9007199254740990) as [q r] eqn:E.
    assert (Hq : q = Z.shiftl (Zpos m) (Zpos p) / 9007199254740990) by (unfold Z.div; rewrite E; reflexivity).
    rewrite Z.shiftl_mul_pow2 in Hq by lia.
    assert (Hb : Zpos m * 2 ^ Zpos p < 2 ^ (Zpos (Pos.size m) + Zpos p)).
    { rewrite Z.pow_add_r by lia. apply Z.mul_lt_mono_pos_r; [apply Z.pow_pos_nonneg|]; lia. }
    assert (0 <= 2 ^ Zpos p) by (apply Z.pow_nonneg; lia).
    assert (0 <= q <= Zpos m * 2 ^ Zpos p) by (rewrite Hq; split; [apply Z.div_pos|apply Z.div_le_upper_bound]; nia).
    apply (binary_round_aux_finite _ _ _ _ (Zpos (Pos.size m) + Zpos p)); lia.
  - destruct (Z.div_eucl 0 9007199254740990) as [q r] eqn:E.
    assert (Hq : q = 0) by (vm_compute in E; congruence).
    apply (binary_round_aux_finite _ _ _ _ 0); simpl; lia.
Qed.

Lemma SFltb_abs_epsilon m e :
  SFltb (SFabs (S754_finite false m e)) (S754_finite false 4503599627370496 (-104)) = true ->
  e < -104 \/ (e = -104 /\ (m < 4503599627370496)%positive).
Proof.
  intros H. unfold SFltb, SFabs, SFcompare in H.
  destruct (e ?= -104) eqn:Ec; try discriminate.
  - apply Z.compare_eq in Ec. right. split; [exact Ec|].
    apply Pos.compare_lt_iff.
    destruct (Pos.compare_cont Eq m 4503599627370496) eqn:Em; try discriminate. exact Em.
  - left. exact Ec.
Qed.

Lemma size_lt_2_52 m : (m < 4503599627370496)%positive -> Zpos (Pos.size m) <= 52.
Proof.
  intros Hm. pose proof (Pos.size_le m) as Hle.
  assert (Hz0 : 2 ^ Zpos (Pos.size m) <= 2 * Zpos m).
  { rewrite <- Pos2Z.inj_pow, <- Pos2Z.inj_xO. apply Pos2Z.pos_le_pos. exact Hle. }
  apply Pos2Z.pos_lt_pos in Hm.
  assert (Hz : 2 ^ Zpos (Pos.size m) < 2 ^ 53) by (change (2 ^ 53) with 9007199254740992; lia).
  apply Z.pow_lt_mono_r_iff in Hz; lia.
Qed.

Lemma abs_lt_epsilon_div_finite (d : float) :
  (PrimFloat.abs d <? f64_epsilon)%float = true -> PrimFloat.is_finite (d / max_rand)%float = true.
Proof.
  intros H. rewrite is_finite_Prim2SF.
  assert (Hv := Prim2SF_valid d).
  rewrite ltb_spec, abs_spec in H.
  replace (Prim2SF f64_epsilon) with (S754_finite false 4503599627370496 (-104)) in H
    by (vm_compute; reflexivity).
  assert (Hsf : match Prim2SF (d / max_rand)%float with
                | S754_zero _ | S754_finite _ _ _ => True | _ => False end).
  { rewrite div_spec. unfold SF64div.
    destruct (Prim2SF d) as [s|s| |s m e] eqn:Ed; try discriminate.
    - rewrite Prim2SF_max_rand. exact I.
    - apply SFdiv_max_rand_finite; [exact Hv|].
      unfold valid_binary, bounded, canonical_mantissa in Hv.
      apply andb_prop in Hv as [Hc _]. apply Z.eqb_eq in Hc.
      rewrite fexp_eq, digits2_pos_size in Hc.
      apply SFltb_abs_epsilon in H as [Hlt | [Heq Hm]]; [lia|].
      apply size_lt_2_52 in Hm. lia. }
  destruct (Prim2SF (d / max_rand)%float); try contradiction; reflexivity.
Qed.

(** ** Length of the weights under mutation *)

Lemma slice_swap_length {A} (l l' : list A) i j :
  slice_swap l i j = Some l' -> length l' = length l.
Proof.
  unfold slice_swap. destruct (nth_error l i), (nth_error l j); try discriminate.
  intros H. inversion H. rewrite !length_list_set. reflexivity.
Qed.

(** The operators applied at the neuron level keep the length. *)
Lemma vec_mutation_apply_neuron_length {A} (v : VecMutation A) (l l' : list A) :
  is_neuron_level v = true -> vec_mutation_apply v l = Some l' -> length l' = length l.
Proof.
  assert (Hinj : forall x : list A, Some x = Some l' -> x = l') by congruence.
  destruct v as [i x|i x|i|i j|i j]; unfold is_neuron_level, vec_mutation_apply;
    try discriminate; intros _ H.
  - destruct (i <? length l)%nat; inversion H. apply length_list_set.
  - apply (slice_swap_length _ _ _ _ H).
  - destruct (Nat.min i j =? Nat.max i j)%nat; [inversion H; reflexivity|].
    destruct (Nat.ltb_spec (Nat.max i j) (length l)) as [Hlt|]; [|discriminate].
    rewrite <- (Hinj _ H).
    rewrite !length_app, length_rev, !length_firstn, !length_skipn.
    pose proof (Nat.le_min_l i j). pose proof (Nat.le_max_l i j).
    pose proof (Nat.le_max_r i j). lia.
Qed.

Lemma mutate_weights_length (w w' : list float) r r' :
  mutate_weights w r = Ret w' r' -> length w' = length w.
Proof.
  unfold mutate_weights.
  destruct (fold_left min_max_step (finite_weights w) (None, None)) as [[mn|] [mx|]];
    try (intros H; inversion H; reflexivity).
  destruct (mn <? mx)%float; [|intros H; inversion H; reflexivity].
  unfold bind.
  destruct (vec_mutation_new (length w) (gen_range_f64_incl mn mx) r) as [v r1| |];
    try discriminate.
  destruct (is_neuron_level v) eqn:Hv; [|intros H; inversion H; reflexivity].
  destruct (vec_mutation_apply v w) as [w1|] eqn:Ha; [|discriminate].
  intros H. inversion H; subst. exact (vec_mutation_apply_neuron_length v w w' Hv Ha).
Qed.

End FarmFacts.

(** * The claims *)

Module Claims.
Import Fitness F64 F64Facts FitnessFacts Rng RngFacts Tournament TournamentOrder TournamentFacts Inject
  InjectFacts Inputs Farm FarmFacts.

(** C4: when [Calc::check] succeeds, the fitness is the mean over the training
    records of the per-record mean of the squared differences of the paired
    expected and actual outputs (each mean a sum over a count in [f64]); on
    the single record [{input: [0,0], output: [0]}] and a predictor returning
    [[0]], the fitness is exactly [0.0]. *)
Theorem check_is_mean_of_mse (calc : Calc) (predict : Predict) (f : float) :
  check calc predict = Ok f ->
  f = spec_fitness calc predict /\ check test_calc test_predict = Ok 0%float.
Proof.
  intros H; split; [|vm_compute; reflexivity].
  unfold check, rbind in H.
  destruct (convert (length calc)) as [len|e] eqn:Hlen; [|discriminate].
  apply convert_ok in Hlen as ->.
  destruct (sum_results _ _) as [s|e] eqn:Hs; [|discriminate].
  apply checked_divide_ok in H as [-> _].
  unfold spec_fitness, f64_mean, f64_sum. rewrite length_map.
  f_equal. f_equal.
  unfold get_mse_iter in Hs. rewrite map_map in Hs.
  apply (sum_results_map_ok _ _ _ _ _ (fun t v _ Hv => record_mse_ok _ v Hv)) in Hs.
  exact Hs.
Qed.

(** C5: [Calc::check] never returns a sentinel: a successful fitness is
    neither NaN nor infinite and is [>= 0.0]; a division whose result is NaN
    or infinite gives [ResultNaN] or [ResultInfinite]; an empty training set,
    or a record with no paired outputs (zero-length denominators), makes
    [check] fail with an error. *)
Theorem check_never_sentinel (calc : Calc) (predict : Predict) :
  (forall f, check calc predict = Ok f ->
     PrimFloat.is_nan f = false /\ PrimFloat.is_infinity f = false /\
     (0 <=? f)%float = true) /\
  (forall a b, PrimFloat.is_nan (a / b) = true ->
     checked_divide a b = Err ResultNaN) /\
  (forall a b, PrimFloat.is_nan (a / b) = false ->
     PrimFloat.is_infinity (a / b) = true ->
     checked_divide a b = Err ResultInfinite) /\
  (calc = [] -> check calc predict = Err ResultNaN) /\
  (forall t, In t calc -> get_mse t (predict (input t)) = [] ->
     exists e, check calc predict = Err e).
Proof.
  split; [|split; [exact checked_divide_nan|split; [exact checked_divide_infinite|split]]].
  - intros f H. unfold check, rbind in H.
    destruct (convert (length calc)) as [len|e] eqn:Hlen; [|discriminate].
    apply convert_ok in Hlen as ->.
    destruct (sum_results _ _) as [s|e] eqn:Hs; [|discriminate].
    pose proof (checked_divide_ok _ _ _ H) as [Hf [Hn Hi]].
    split; [exact Hn|split; [exact Hi|]].
    apply leb_zero_nonneg; [exact Hn|].
    rewrite Hf, div_spec. apply div_nonneg; [|apply usize_as_f64_sign_false].
    unfold get_mse_iter in Hs. rewrite map_map in Hs.
    apply (sum_results_map_nonneg _ _ _ _ (fun t v _ Hv => record_mse_nonneg _ _ v Hv))
      in Hs; [exact Hs|reflexivity].
  - intros ->. vm_compute. reflexivity.
  - intros t Ht He. unfold check, rbind.
    destruct (convert (length calc)) as [len|e]; [|eauto].
    unfold get_mse_iter. rewrite map_map.
    destruct (sum_results_map_err
                (fun t => record_mse (get_mse t (predict (input t)))) calc 0%float t
                ResultNaN Ht) as [e' ->]; [|eauto].
    rewrite He. apply record_mse_empty.
Qed.

(** C3 (amended): for a non-empty pool of records whose fitness is not NaN
    (as every fitness [Calc::check] accepts), with a tournament size at least
    the pool size, [Tournament::select] draws the whole pool in shuffled order
    and returns [Some w]: [w] belongs to the pool and has the lowest fitness
    of all, and every record sampled after [w] has a strictly higher fitness,
    so among records of equal lowest fitness the winner is the LAST one
    encountered in sample order. *)
Theorem select_full_tournament_last_min {G : Type} (ts : nat)
    (c : list (CompareRecord G)) (r : rng) :
  c <> [] -> (length c <= ts)%nat -> Forall not_nan_rec c ->
  exists s w r',
    tournament_iter ts c r = Ret s r' /\
    select ts c r = Ret (Some w) r' /\
    Permutation c s /\
    In w c /\
    Forall (fit_le w) c /\
    last_min s w.
Proof.
  intros Hne Hts Hnan.
  destruct (tournament_iter_spec G ts c r) as [s [r' [ids [Heq _]]]].
  assert (HP := tournament_sample_Permutation G ts c r s r' Hts Heq).
  assert (Hs : s <> []).
  { intros ->. apply Permutation_sym, Permutation_nil in HP. contradiction. }
  destruct (fold_select_step_some G s Hs) as [w Hw].
  assert (Hnan_s : Forall not_nan_rec s).
  { apply Forall_forall. intros x Hx. rewrite Forall_forall in Hnan.
    apply Hnan. apply (Permutation_in _ (Permutation_sym HP)), Hx. }
  assert (Hlm := fold_select_step_last_min G s w Hnan_s Hw).
  exists s, w, r'. split; [exact Heq|].
  split; [unfold select, bind; rewrite Heq; unfold ret; rewrite Hw; reflexivity|].
  split; [exact HP|].
  split.
  { destruct Hlm as [s1 [s2 [-> _]]]. apply (Permutation_in _ (Permutation_sym HP)).
    apply in_or_app. right. left. reflexivity. }
  split; [|exact Hlm].
  apply (Permutation_Forall (Permutation_sym HP)).
  apply last_min_le_all; assumption.
Qed.

(** C9: with a positive tournament size, [Tournament::select] always
    returns (it never panics), and it returns [None] exactly when the pool is
    empty. *)
Theorem select_none_iff_empty {G : Type} (ts : nat) (c : list (CompareRecord G))
    (r : rng) :
  (0 < ts)%nat ->
  exists o r', select ts c r = Ret o r' /\ (o = None <-> c = []).
Proof.
  intros Hts.
  destruct (tournament_iter_spec G ts c r) as [s [r' [ids [Heq _]]]].
  assert (Hlen := length_tournament_sample G ts c r s r' Heq).
  exists (fold_left select_step s None), r'.
  split; [unfold select, bind; rewrite Heq; reflexivity|].
  destruct s as [|x s'] eqn:Es.
  - split; [|reflexivity]. intros _.
    destruct c; [reflexivity|]. unfold tournament_size in Hlen. simpl in Hlen. lia.
  - rewrite <- Es in *.
    destruct (fold_select_step_some G s) as [w Hw]; [subst; discriminate|].
    rewrite Hw. split; [discriminate|].
    intros ->. subst s. unfold tournament_size in Hlen. simpl in Hlen. lia.
Qed.

(** C10: when the generation is non-empty or there are no elites,
    [inject::genomes] returns a generation of the same length in which each
    slot holds its original genome or one of the elites; when the generation
    is empty and there are elites, the index draw is over the empty range
    [0..0] and it panics. *)
Theorem inject_genomes_spec {G : Type} :
  (forall (g e : list G) (r : rng),
     g <> [] \/ e = [] ->
     exists g' r', genomes g e r = Ret g' r' /\ length g' = length g /\
       (forall i x, nth_error g' i = Some x -> nth_error g i = Some x \/ In x e)) /\
  (forall (g e : list G) (r : rng),
     g = [] -> e <> [] -> genomes g e r = Panic).
Proof.
  split.
  - intros g e r Hpre. unfold genomes. apply inject_loop_spec; [reflexivity|].
    destruct Hpre as [Hg|He]; [left|right; exact He].
    destruct g; [congruence|simpl; lia].
  - intros g e r -> He. destruct e as [|y e]; [congruence|].
    unfold genomes. apply inject_loop_panic.
Qed.

(** C1 (diverges from the code): [Run::run] returns as many genomes as the
    ranked pool holds, not as many as its input: [new_generation] breeds up
    to [gen_size = generation.len()] of the ranked pool, from which every
    genome whose fitness cannot be computed has been dropped. On the input
    [[1.0; NaN]] of the documentation example's algorithm, [run] returns a
    single genome. *)
Theorem run_size_is_ranked_pool_size :
  (forall (G : Type) (predict_of : G -> Predict) (r : Run.Run G) fuel generation rng
     out rng',
     Run.run predict_of r fuel generation rng = Ret out rng' ->
     length out = length (Run.rank_generation predict_of r generation)) /\
  (exists out rng',
     Run.run Run.scale_predict run1 10 gen_with_nan (rng_const 0 0) = Ret out rng' /\
     length out = 1%nat /\ length gen_with_nan = 2%nat).
Proof.
  split.
  - intros G predict_of r fuel generation rng out rng'. apply RunFacts.run_length.
  - eexists _, _. split; [vm_compute; reflexivity|]. split; reflexivity.
Qed.

(** C2: what the code does when no genome of the input has a computable
    fitness.  The ranked pool is empty, so [gen_size] (the ranked-pool length,
    run.rs:232, the defect of C1) is 0, the breed loop exits before its first
    iteration, and [Run::run] returns an empty generation, whatever the step
    budget and without drawing from the generator: it neither loops nor
    returns a generation of the input's size. *)
Theorem run_all_failing_returns_empty {G : Type} (predict_of : G -> Predict)
    (r : Run.Run G) fuel generation rng :
  Forall (fun g => exists e,
            Run.create_compare_record predict_of (Run.fitness_calc r) g = Err e)
    generation ->
  Run.run predict_of r fuel generation rng = Ret [] rng.
Proof.
  intros Hfail. unfold Run.run, Run.breed_generation, Run.new_generation, bind, ret.
  rewrite (RunFacts.rank_generation_all_fail G predict_of r generation Hfail).
  unfold Run.partition_elite.
  destruct fuel; cbn; rewrite firstn_nil; reflexivity.
Qed.

(** C6 (amended): for finite parents [a] and [b] (neither NaN nor infinite)
    for which [UniformFloat]'s [scale = (max(a,b) - min(a,b)) / (1 - 2^-52)]
    is finite, the [f64] crossover returns a value of [[min(a,b), max(a,b)]],
    equal to [a] when [a == b]; when that quotient overflows (as for [0.0]
    and [f64::MAX], or [-f64::MAX] and [f64::MAX]), the range draw
    [gen_range(min..=max)] panics. *)
Theorem f64_crossover_bounds (a b : float) (r : rng) :
  PrimFloat.is_finite a = true -> PrimFloat.is_finite b = true ->
  (PrimFloat.is_finite ((f64_max a b - f64_min a b) / max_rand)%float = true ->
     exists c r', f64_crossover a b r = Ret c r' /\
       (f64_min a b <=? c)%float = true /\ (c <=? f64_max a b)%float = true /\
       ((a =? b)%float = true -> (c =? a)%float = true)) /\
  (PrimFloat.is_finite ((f64_max a b - f64_min a b) / max_rand)%float = false ->
     f64_crossover a b r = Panic).
Proof.
  intros Ha Hb.
  assert (Han := finite_not_nan a Ha). assert (Hbn := finite_not_nan b Hb).
  assert (Hmin : PrimFloat.is_finite (f64_min a b) = true)
    by (destruct (f64_min_cases a b Han Hbn) as [-> | ->]; assumption).
  assert (Hmax : PrimFloat.is_finite (f64_max a b) = true)
    by (destruct (f64_max_cases a b Han Hbn) as [-> | ->]; assumption).
  assert (Hle := f64_min_le_max a b Han Hbn).
  unfold f64_crossover, bind, ret.
  rewrite (finite_nan_or_infinite a Ha), (finite_nan_or_infinite b Hb).
  split.
  - intros Hfin.
    destruct (PrimFloat.abs (f64_max a b - f64_min a b) <? f64_epsilon)%float eqn:E.
    + exists (f64_min a b), r. split; [reflexivity|].
      split; [apply leb_refl, finite_not_nan, Hmin|]. split; [exact Hle|].
      intros Heq. destruct (f64_min_cases a b Han Hbn) as [-> | ->].
      * apply eqb_refl'. exact Han.
      * apply eqb_sym'; assumption.
    + destruct (gen_range_f64_incl_spec (f64_min a b) (f64_max a b) r Hle Hfin)
        as [u [Hu [H1 H2]]].
      exists u, (Streams.tl r). split; [exact Hu|]. split; [exact H1|]. split; [exact H2|].
      intros Heq. exfalso.
      assert (Hmm : (f64_max a b =? f64_min a b)%float = true).
      { destruct (f64_min_cases a b Han Hbn) as [-> | ->];
          destruct (f64_max_cases a b Han Hbn) as [-> | ->].
        - apply eqb_refl'. exact Han.
        - apply eqb_sym'; assumption.
        - exact Heq.
        - apply eqb_refl'. exact Hbn. }
      destruct (eqb_sub_zero _ _ Hmax (finite_not_nan _ Hmin) Hmm) as [s Hs].
      rewrite (abs_zero_lt_epsilon _ s Hs) in E. discriminate.
  - intros Hinf.
    destruct (PrimFloat.abs (f64_max a b - f64_min a b) <? f64_epsilon)%float eqn:E.
    + apply abs_lt_epsilon_div_finite in E. congruence.
    + unfold gen_range_f64_incl. rewrite Hinf, orb_true_r. reflexivity.
Qed.

(** C7: when the crossover of two sequences returns, its length is the
    larger of the parents' lengths; its first [min(len a, len b)] elements
    are the element crossovers of the paired elements, drawn in order (each
    one an outcome of the element crossover on its pair); the rest is the
    surplus tail of the longer parent, unchanged. When the element crossover
    always returns, so does the sequence crossover. *)
Theorem vec_crossover_spec {T : Type} (cross : T -> T -> M T) (a b : list T) (r : rng) :
  (forall l r', vec_crossover cross a b r = Ret l r' ->
     let n := Nat.min (length a) (length b) in
     length l = Nat.max (length a) (length b) /\
     (exists r'', mapM (fun '(x, y) => cross x y) (combine a b) r = Ret (firstn n l) r'') /\
     (forall i x y z, nth_error a i = Some x -> nth_error b i = Some y ->
        nth_error l i = Some z -> exists r1 r2, cross x y r1 = Ret z r2) /\
     (length a <= length b -> skipn n l = skipn n b)%nat /\
     (length b <= length a -> skipn n l = skipn n a)%nat) /\
  ((forall x y r0, exists z r1, cross x y r0 = Ret z r1) ->
     exists l r', vec_crossover cross a b r = Ret l r').
Proof.
  split.
  - intros l r' H n. unfold vec_crossover, bind in H.
    destruct (mapM (fun '(x, y) => cross x y) (combine a b) r) as [crossed r1| |] eqn:E;
      try discriminate.
    unfold ret in H. inversion H as [[Hl Hr]]. clear H.
    assert (Hc : length crossed = n)
      by (rewrite (mapM_length _ _ _ _ _ E), length_combine; reflexivity).
    assert (Hrest : (length a <= length b -> skipn n (crossed ++
              (if (length a <? length b)%nat then skipn n b else skipn n a)) = skipn n b)%nat /\
            (length b <= length a -> skipn n (crossed ++
              (if (length a <? length b)%nat then skipn n b else skipn n a)) = skipn n a)%nat).
    { rewrite <- Hc, skipn_length_app, Hc. unfold n.
      destruct (Nat.ltb_spec (length a) (length b)); split; intros Hle; try reflexivity.
      - lia.
      - rewrite !skipn_all2 by lia. reflexivity. }
    try subst l. split; [|split; [|split]].
    + rewrite length_app, Hc. fold n. destruct (Nat.ltb_spec (length a) (length b));
        rewrite length_skipn; unfold n; lia.
    + exists r1. rewrite <- Hc, firstn_length_app. congruence.
    + intros i x y z Hx Hy Hz.
      assert (Hi : (i < n)%nat).
      { unfold n. apply Nat.min_glb_lt; apply nth_error_Some; congruence. }
      rewrite nth_error_app1 in Hz by lia.
      apply (mapM_nth_error _ _ _ _ _ i (x, y) z E); [|exact Hz].
      rewrite nth_error_combine, Hx, Hy. reflexivity.
    + exact Hrest.
  - intros Htot. unfold vec_crossover, bind.
    destruct (mapM_total (fun '(x, y) => cross x y) (combine a b)
                (fun '(x, y) r0 => Htot x y r0) r) as [crossed [r1 ->]].
    eexists _, _. reflexivity.
Qed.

(** C8 (amended): whenever [Target::mutate] of a neuron genome returns, the
    weights of the result have as many elements as the input's: the
    element-wise mutation keeps the length, and of the structural mutations
    only [Replace], [Swap] and [Reverse] are applied, each keeping the length.
    It does not always return: the element of a generated [Insert] or
    [Replace] is drawn from [min..=max] of the finite weights before the
    variant is checked, and that draw panics when [max - min] overflows. *)
Theorem neuron_mutate_weights_length (m : Mutator) (g g' : NeuronGenome) (r r' : rng) :
  neuron_mutate m g r = Ret g' r' -> length (weights g') = length (weights g).
Proof.
  unfold neuron_mutate, bind, ret.
  destruct (activator_mutate m (activator g) r) as [a r1| |]; try discriminate.
  destruct (vec_mutate (f64_mutate m) (weights g) r1) as [w r2| |] eqn:Hw; try discriminate.
  destruct (f64_mutate m (bias g) r2) as [b r3| |]; try discriminate.
  destruct (check_mutate m r3) as [[] r4| |]; try discriminate.
  - destruct (mutate_weights w r4) as [w' r5| |] eqn:Hm; try discriminate.
    intros H. inversion H; subst. simpl.
    rewrite (mutate_weights_length _ _ _ _ Hm). exact (mapM_length _ _ _ _ _ Hw).
  - intros H. inversion H; subst. simpl. exact (mapM_length _ _ _ _ _ Hw).
Qed.

(** * Witnesses and counterexamples *)

(** C4 at the single-record training set of the documentation. *)
Lemma check_is_mean_of_mse_witness :
  check test_calc test_predict = Ok 0%float /\
  0%float = spec_fitness test_calc test_predict.
Proof.
  split; [vm_compute; reflexivity|].
  apply (check_is_mean_of_mse test_calc test_predict 0%float).
  vm_compute. reflexivity.
Defined.

(** C5 at [0 / 0], [1 / 0] and at an empty training set. *)
Lemma check_never_sentinel_witness :
  (PrimFloat.is_nan 0 = false /\ PrimFloat.is_infinity 0 = false /\
   (0 <=? 0)%float = true) /\
  checked_divide 0 0 = Err ResultNaN /\
  checked_divide 1 0 = Err ResultInfinite /\
  check [] test_predict = Err ResultNaN.
Proof.
  destruct (check_never_sentinel test_calc test_predict) as [H1 [H2 [H3 _]]].
  destruct (check_never_sentinel [] test_predict) as [_ [_ [_ [H4 _]]]].
  split; [apply H1; vm_compute; reflexivity|].
  split; [apply H2; vm_compute; reflexivity|].
  split; [apply H3; vm_compute; reflexivity|].
  apply H4. reflexivity.
Defined.

(** C1: the documentation's algorithm returns [[1.0]] on [[1.0; NaN]]; the
    theorem relates this to the ranked pool. *)
Lemma run_size_is_ranked_pool_size_witness :
  exists out rng',
    Run.run Run.scale_predict run1 10 gen_with_nan (rng_const 0 0) = Ret out rng' /\
    length out = length (Run.rank_generation Run.scale_predict run1 gen_with_nan) /\
    length out <> length gen_with_nan.
Proof.
  destruct (run_size_is_ranked_pool_size) as [Hlen [out [rng' [E [H1 H2]]]]].
  exists out, rng'. split; [exact E|]. split.
  - exact (Hlen float Run.scale_predict run1 10%nat gen_with_nan (rng_const 0 0) out rng' E).
  - rewrite H1, H2. discriminate.
Defined.

(** C2 at a generation of two NaN genomes, with no step budget at all. *)
Lemma run_all_failing_returns_empty_witness :
  Run.run Run.scale_predict run1 0 gen_all_nan (rng_const 0 0) = Ret [] (rng_const 0 0).
Proof.
  apply run_all_failing_returns_empty.
  repeat constructor; exists ResultNaN; vm_compute; reflexivity.
Defined.

(** Failing input for C2: every genome fails, and [run] returns. *)
Lemma run_all_failing_counterexample :
  Forall (fun g => exists e,
            Run.create_compare_record Run.scale_predict calc1 g = Err e) gen_all_nan /\
  exists out rng', Run.run Run.scale_predict run1 0 gen_all_nan (rng_const 0 0) = Ret out rng'.
Proof.
  split.
  - repeat constructor; exists ResultNaN; vm_compute; reflexivity.
  - eexists _, _. vm_compute. reflexivity.
Defined.

(** C3 at the pool of two equal records, with a tournament of size 2. *)
Lemma select_full_tournament_last_min_witness :
  exists s w r',
    tournament_iter 2 c3_pool (rng_const 1 0) = Ret s r' /\
    select 2 c3_pool (rng_const 1 0) = Ret (Some w) r' /\
    Permutation c3_pool s /\ In w c3_pool /\
    Forall (fit_le w) c3_pool /\ last_min s w.
Proof.
  apply select_full_tournament_last_min.
  - discriminate.
  - simpl. lia.
  - repeat constructor.
Defined.

(** Counterexample to C3 as stated: the sample is [[rec0; rec1]], both of the
    lowest fitness [1.0], and the winner is [rec1], not the first one
    encountered. *)
Lemma select_first_tie_counterexample :
  exists r',
    tournament_iter 2 c3_pool (rng_const 1 0) = Ret [c3_rec0; c3_rec1] r' /\
    select 2 c3_pool (rng_const 1 0) = Ret (Some c3_rec1) r' /\
    fitness c3_rec0 = fitness c3_rec1 /\ c3_rec1 <> c3_rec0.
Proof.
  eexists. split; [vm_compute; reflexivity|].
  split; [vm_compute; reflexivity|].
  split; [reflexivity|discriminate].
Defined.

(** C9 at a tournament of size 10, on a pool of two records and on the
    empty pool. *)
Lemma select_none_iff_empty_witness :
  (exists o r', select 10 c3_pool (rng_const 0 0) = Ret o r' /\ (o = None <-> c3_pool = [])) /\
  (exists o r', select 10 (@nil (CompareRecord nat)) (rng_const 0 0) = Ret o r' /\
     (o = None <-> @nil (CompareRecord nat) = [])).
Proof.
  split; apply select_none_iff_empty; lia.
Defined.

(** C10 on a generation of two genomes and one elite, and on the empty
    generation with one elite. *)
Lemma inject_genomes_spec_witness :
  (exists g' r', genomes [1; 2]%nat [3]%nat (rng_const 0 0) = Ret g' r' /\
     length g' = length [1; 2]%nat /\
     (forall i x, nth_error g' i = Some x -> nth_error [1; 2]%nat i = Some x \/ In x [3]%nat)) /\
  genomes [] [3]%nat (rng_const 0 0) = Panic.
Proof.
  destruct (@inject_genomes_spec nat) as [H1 H2]. split.
  - apply H1. left. discriminate.
  - apply H2; [reflexivity|discriminate].
Defined.

(** C6 at [a = b = 0.5]: the crossover returns [0.5]; at [a = 0.0] and
    [b = f64::MAX] it panics. *)
Lemma f64_crossover_bounds_witness :
  (exists c r', f64_crossover 0x1p-1 0x1p-1 (rng_const 0 0) = Ret c r' /\
    (f64_min 0x1p-1 0x1p-1 <=? c)%float = true /\ (c <=? f64_max 0x1p-1 0x1p-1)%float = true /\
    (c =? 0x1p-1)%float = true) /\
  f64_crossover 0%float f64_max_value (rng_const 0 0) = Panic.
Proof.
  split.
  - destruct (f64_crossover_bounds 0x1p-1 0x1p-1 (rng_const 0 0) eq_refl eq_refl) as [H _].
    destruct (H ltac:(vm_compute; reflexivity)) as [c [r' [E [L [U Q]]]]].
    exists c, r'. split; [exact E|]. split; [exact L|]. split; [exact U|].
    apply Q. reflexivity.
  - destruct (f64_crossover_bounds 0%float f64_max_value (rng_const 0 0) eq_refl eq_refl) as [_ H].
    apply H. vm_compute. reflexivity.
Defined.

(** Counterexample to C6 as stated: all parents are finite, and the
    crossovers of [0.0] and [f64::MAX] and of [-f64::MAX] and [f64::MAX]
    panic. *)
Lemma f64_crossover_overflow_counterexample :
  PrimFloat.is_finite (- f64_max_value) = true /\ PrimFloat.is_finite f64_max_value = true /\
  PrimFloat.is_finite 0%float = true /\
  f64_crossover 0%float f64_max_value (rng_const 0 0) = Panic /\
  f64_crossover (- f64_max_value) f64_max_value (rng_const 0 0) = Panic.
Proof. vm_compute. repeat split. Defined.

(** C7 with an element crossover that adds the paired elements, on parents
    of lengths 3 and 1. *)
Lemma vec_crossover_spec_witness :
  exists l r', vec_crossover (fun x y => ret (x + y)%nat) [1; 2; 3]%nat [10]%nat
                 (rng_const 0 0) = Ret l r' /\
    length l = 3%nat /\ skipn 1 l = [2; 3]%nat.
Proof.
  destruct (vec_crossover_spec (fun x y => ret (x + y)%nat) [1; 2; 3]%nat [10]%nat
              (rng_const 0 0)) as [H1 H2].
  destruct H2 as [l [r' E]].
  { intros x y r0. eexists _, _. reflexivity. }
  exists l, r'. split; [exact E|].
  destruct (H1 l r' E) as [Hlen [_ [_ [_ Hskip]]]].
  split; [exact Hlen|]. apply Hskip. simpl. lia.
Defined.

(** C8 on a neuron with weights [[0.0; 1.0; 2.0]]. *)
Lemma neuron_mutate_weights_length_witness :
  exists g' r', neuron_mutate default_mutator small_genome (rng_const 0 0) = Ret g' r' /\
    length (weights g') = 3%nat.
Proof.
  destruct (neuron_mutate default_mutator small_genome (rng_const 0 0)) as [g' r'| |] eqn:E;
    [|vm_compute in E; discriminate..].
  exists g', r'. split; [reflexivity|].
  rewrite (neuron_mutate_weights_length _ _ _ _ _ E). reflexivity.
Defined.

(** Counterexample to C8 as stated: with every draw [1] and [0.0], the
    mutation of a neuron with weights [[-f64::MAX; f64::MAX]] generates a
    [Replace] whose element is drawn from [-f64::MAX..=f64::MAX], and panics. *)
Lemma neuron_mutate_overflow_counterexample :
  neuron_mutate default_mutator c8_genome (rng_const 1 0) = Panic.
Proof. vm_compute. reflexivity. Defined.

End Claims.

(** * Further properties of the code *)

Module BestFacts.
Import Fitness F64 F64Facts FitnessFacts Tournament BestEntity.

Lemma collect_results_map_ok {A B} (h : A -> result B) l v :
  collect_results (map h l) = Ok v -> Forall2 (fun x y => h x = Ok y) l v.
Proof.
  revert v; induction l as [|x l IH]; intros v H; simpl in H.
  - inversion H. constructor.
  - destruct (h x) as [b|e] eqn:E; [|discriminate].
    destruct (collect_results (map h l)) as [bs|e] eqn:E2; simpl in H; [|discriminate].
    inversion H; subst. constructor; [exact E|apply IH; reflexivity].
Qed.

Lemma collect_results_map_err {A B} (h : A -> result B) l e :
  collect_results (map h l) = Err e <->
  exists l1 x l2, l = l1 ++ x :: l2 /\ Forall (fun y => exists b, h y = Ok b) l1 /\
    h x = Err e.
Proof.
  split.
  - induction l as [|x l IH]; simpl; intros H; [discriminate|].
    destruct (h x) as [b|e'] eqn:E.
    + destruct (collect_results (map h l)) eqn:E2; simpl in H; [discriminate|].
      inversion H; subst. destruct (IH eq_refl) as [l1 [y [l2 [-> [H1 H2]]]]].
      exists (x :: l1), y, l2. split; [reflexivity|]. split; [|exact H2].
      constructor; [exists b; exact E|exact H1].
    + inversion H; subst. exists [], x, l. auto.
  - intros [l1 [x [l2 [-> [H1 H2]]]]]. induction H1 as [|y l1 [b Hb] _ IH]; simpl.
    + rewrite H2. reflexivity.
    + rewrite Hb, IH. reflexivity.
Qed.

Lemma Forall2_In_l {A B} (R : A -> B -> Prop) l v x :
  Forall2 R l v -> In x l -> exists y, In y v /\ R x y.
Proof.
  intros H; induction H as [|a b l v Hab _ IH]; intros Hx; [destruct Hx|].
  destruct Hx as [<-|Hx].
  - exists b. split; [left; reflexivity|exact Hab].
  - destruct (IH Hx) as [y [Hy Hr]]. exists y. split; [right; exact Hy|exact Hr].
Qed.

Section MinBy.
Variable A : Type.
Variable cmp : A -> A -> comparison.
Hypothesis Hopp : forall x y, cmp y x = CompOpp (cmp x y).
Hypothesis Htrans : forall x y z, cmp x y <> Gt -> cmp y z <> Gt -> cmp x z <> Gt.

Lemma cmp_refl x : cmp x x = Eq.
Proof. pose proof (Hopp x x) as H. destruct (cmp x x); simpl in H; congruence. Qed.

Lemma fold_min_by_first_min x t :
  exists v1 v2, x :: t = v1 ++ fold_left (cmp_min_by cmp) t x :: v2 /\
    Forall (fun y => cmp (fold_left (cmp_min_by cmp) t x) y <> Gt) (x :: t) /\
    Forall (fun y => cmp y (fold_left (cmp_min_by cmp) t x) = Gt) v1.
Proof.
  induction t as [|y t IH] using rev_ind; simpl.
  - exists [], []. split; [reflexivity|]. split; [|constructor].
    constructor; [rewrite cmp_refl; discriminate|constructor].
  - rewrite fold_left_app. simpl.
    set (acc := fold_left (cmp_min_by cmp) t x) in *.
    destruct IH as [v1 [v2 [Hs [Hle Hgt]]]].
    change (x :: t ++ [y]) with ((x :: t) ++ [y]).
    unfold cmp_min_by. destruct (cmp acc y) eqn:E.
    1, 2: exists v1, (v2 ++ [y]); split;
      [rewrite Hs, <- app_assoc; reflexivity|];
      split; [apply Forall_app; split; [exact Hle|constructor; [congruence|constructor]]
             |exact Hgt].
    assert (Hzy : Forall (fun z => cmp z y = Gt) (x :: t)).
    { apply Forall_forall. intros z Hz. cbv beta.
      assert (Hz' : cmp acc z <> Gt) by exact (proj1 (Forall_forall _ _) Hle z Hz).
      destruct (cmp z y) eqn:Ez; try reflexivity; exfalso;
        refine (Htrans acc z y Hz' _ E); congruence. }
    exists (x :: t), []. split; [reflexivity|]. split; [|exact Hzy].
    apply Forall_app. split.
    + apply Forall_forall. intros z Hz. rewrite Hopp.
      rewrite (proj1 (Forall_forall _ _) Hzy z Hz). discriminate.
    + constructor; [rewrite cmp_refl; discriminate|constructor].
Qed.

Lemma min_by_first_min l w :
  min_by cmp l = Some w ->
  exists v1 v2, l = v1 ++ w :: v2 /\ Forall (fun y => cmp w y <> Gt) l /\
    Forall (fun y => cmp y w = Gt) v1.
Proof.
  destruct l as [|x t]; [discriminate|]. simpl. intros H. injection H as <-.
  apply fold_min_by_first_min.
Qed.

End MinBy.

End BestFacts.

Module BestEntityExtras.
Import Fitness F64 F64Facts FitnessFacts Tournament BestEntity BestFacts.

(** X1: [Calc::check] returns [Ok] only for a non-empty training set in which the
    prediction for every record pairs with at least one expected output
    (otherwise a [0.0 / 0.0] makes it fail). *)
Theorem check_ok_pairs_every_record (calc : Calc) (predict : Predict) (f : float) :
  check calc predict = Ok f ->
  calc <> [] /\ Forall (fun t => combine (output t) (predict (input t)) <> []) calc.
Proof.
  unfold check, rbind.
  destruct (convert (length calc)) as [len|e] eqn:Hc; [|discriminate].
  destruct (sum_results 0 (map record_mse (get_mse_iter calc predict))) as [s|e] eqn:Hs;
    [|discriminate].
  intros Hd. split.
  - intros ->. apply convert_ok in Hc. subst len. simpl in Hs. inversion Hs; subst s.
    vm_compute in Hd. discriminate.
  - apply Forall_forall. intros t Ht Hnil.
    unfold get_mse_iter in Hs. rewrite map_map in Hs.
    destruct (sum_results_map_err (fun t => record_mse (get_mse t (predict (input t))))
                calc 0 t ResultNaN Ht) as [e' He'].
    + unfold get_mse. rewrite Hnil. exact record_mse_empty.
    + congruence.
Qed.

(** X2: [Calc::best_entity] fails exactly when some entity's fitness cannot be
    computed, and then with the error of the first such entity. *)
Theorem best_entity_first_error {P : Type} (predict_of : P -> Predict) (calc : Calc)
    (compare : CompareRecord P -> CompareRecord P -> comparison) (entities : list P) e :
  best_entity predict_of calc compare entities = Err e <->
  exists l1 g l2, entities = l1 ++ g :: l2 /\
    Forall (fun g' => exists f, check calc (predict_of g') = Ok f) l1 /\
    check calc (predict_of g) = Err e.
Proof.
  unfold best_entity.
  set (h := fun predict : P => rbind (check calc (predict_of predict))
              (fun fitness => Ok (Build_CompareRecord fitness predict))).
  assert (Hok : forall g, (exists b, h g = Ok b) <-> exists f, check calc (predict_of g) = Ok f).
  { intros g. unfold h. destruct (check calc (predict_of g)); simpl;
      split; intros [x Hx]; try discriminate; eexists; reflexivity. }
  assert (Herr : forall g, h g = Err e <-> check calc (predict_of g) = Err e).
  { intros g. unfold h. destruct (check calc (predict_of g)); simpl; split; congruence. }
  destruct (collect_results (map h entities)) as [v|e0] eqn:Hc; simpl.
  - split; [discriminate|]. intros [l1 [g [l2 [Hl [H1 H2]]]]].
    assert (Hx : collect_results (map h entities) = Err e).
    { apply collect_results_map_err. exists l1, g, l2. split; [exact Hl|]. split.
      - eapply Forall_impl; [|exact H1]. intros y Hy. apply Hok. exact Hy.
      - apply Herr. exact H2. }
    congruence.
  - assert (Hiff : (@Err (option P) e0 = Err e) <-> collect_results (map h entities) = Err e)
      by (rewrite Hc; split; congruence).
    rewrite Hiff, collect_results_map_err.
    split; intros [l1 [g [l2 [Hl [H1 H2]]]]]; exists l1, g, l2;
      (split; [exact Hl|]); (split; [eapply Forall_impl; [|exact H1]; intros y Hy; apply Hok; exact Hy|apply Herr; exact H2]).
Qed.

(** X3: [Calc::best_entity] returns [Ok(None)] exactly for an empty list of
    entities: for a non-empty one it returns an error or some entity. *)
Theorem best_entity_none_iff_empty {P : Type} (predict_of : P -> Predict) (calc : Calc)
    (compare : CompareRecord P -> CompareRecord P -> comparison) (entities : list P) :
  best_entity predict_of calc compare entities = Ok None <-> entities = [].
Proof.
  unfold best_entity. destruct entities as [|g l]; simpl; [split; reflexivity|].
  split; [|discriminate].
  destruct (check calc (predict_of g)); simpl; [|discriminate].
  destruct (collect_results _); simpl; discriminate.
Qed.

(** X4: For a [Compare] implementation that is a total preorder, the entity
    returned by [Calc::best_entity] compares not [Greater] than every entity,
    and every entity before it compares [Greater] than it: it is the first
    of the best entities. *)
Theorem best_entity_first_min {P : Type} (predict_of : P -> Predict) (calc : Calc)
    (compare : CompareRecord P -> CompareRecord P -> comparison) (entities : list P) w :
  (forall x y, compare y x = CompOpp (compare x y)) ->
  (forall x y z, compare x y <> Gt -> compare y z <> Gt -> compare x z <> Gt) ->
  best_entity predict_of calc compare entities = Ok (Some w) ->
  exists fw l1 l2, entities = l1 ++ w :: l2 /\ check calc (predict_of w) = Ok fw /\
    (forall g f, In g entities -> check calc (predict_of g) = Ok f ->
       compare (Build_CompareRecord fw w) (Build_CompareRecord f g) <> Gt) /\
    (forall g f, In g l1 -> check calc (predict_of g) = Ok f ->
       compare (Build_CompareRecord f g) (Build_CompareRecord fw w) = Gt).
Proof.
  intros Hopp Htrans. unfold best_entity.
  set (h := fun predict : P => rbind (check calc (predict_of predict))
              (fun fitness => Ok (Build_CompareRecord fitness predict))).
  assert (Hh : forall g y, h g = Ok y ->
            exists f, check calc (predict_of g) = Ok f /\ y = Build_CompareRecord f g).
  { intros g y. unfold h. destruct (check calc (predict_of g)) as [f|]; simpl;
      [|discriminate]. intros H. inversion H. exists f. auto. }
  destruct (collect_results (map h entities)) as [v|e] eqn:Hc; simpl; [|discriminate].
  destruct (min_by compare v) as [wr|] eqn:Hm; simpl; [|discriminate].
  intros H. injection H as <-.
  apply collect_results_map_ok in Hc.
  destruct (min_by_first_min _ compare Hopp Htrans v wr Hm) as [v1 [v2 [Hv [Hall Hgt]]]].
  assert (Hc' := Hc). rewrite Hv in Hc'.
  apply Forall2_app_inv_r in Hc' as [l1 [l' [H1 [H2 He]]]].
  inversion H2 as [|g wr' l2 v2' Hg _ Hl' Hv2]; subst l' wr'.
  destruct (Hh g wr Hg) as [fw [Hfw ->]]. simpl.
  exists fw, l1, l2. split; [exact He|]. split; [exact Hfw|]. split.
  - intros g' f Hg' Hf. destruct (Forall2_In_l _ _ _ _ Hc Hg') as [y [Hy Hr]].
    destruct (Hh g' y Hr) as [f' [Hf' ->]]. rewrite Hf in Hf'. injection Hf' as <-.
    exact (proj1 (Forall_forall _ _) Hall _ Hy).
  - intros g' f Hg' Hf. destruct (Forall2_In_l _ _ _ _ H1 Hg') as [y [Hy Hr]].
    destruct (Hh g' y Hr) as [f' [Hf' ->]]. rewrite Hf in Hf'. injection Hf' as <-.
    exact (proj1 (Forall_forall _ _) Hgt _ Hy).
Qed.


(** ** Witnesses *)

(** At the training set [calc1] and the predictor scaling by [2.0]. *)
Lemma check_ok_pairs_every_record_witness :
  check Inputs.calc1 (Run.scale_predict 2%float) = Ok 4%float /\
  Inputs.calc1 <> [] /\
  Forall (fun t => combine (output t) (Run.scale_predict 2%float (input t)) <> []) Inputs.calc1.
Proof.
  split; [vm_compute; reflexivity|].
  apply (check_ok_pairs_every_record Inputs.calc1 (Run.scale_predict 2%float) 4%float).
  vm_compute; reflexivity.
Defined.

(** At the scaling predictors [[2.0; 1.0; 3.0; 1.0]] and the fitness
    comparator: the first predictor [1.0] is returned. *)
Lemma best_entity_first_min_witness :
  best_entity Run.scale_predict Inputs.calc1 Inputs.fitness_compare [2; 1; 3; 1]%float =
    Ok (Some 1%float) /\
  exists fw l1 l2, [2; 1; 3; 1]%float = l1 ++ 1%float :: l2 /\
    check Inputs.calc1 (Run.scale_predict 1%float) = Ok fw /\
    (forall g f, In g [2; 1; 3; 1]%float -> check Inputs.calc1 (Run.scale_predict g) = Ok f ->
       Inputs.fitness_compare (Build_CompareRecord fw 1%float) (Build_CompareRecord f g) <> Gt) /\
    (forall g f, In g l1 -> check Inputs.calc1 (Run.scale_predict g) = Ok f ->
       Inputs.fitness_compare (Build_CompareRecord f g) (Build_CompareRecord fw 1%float) = Gt).
Proof.
  split; [vm_compute; reflexivity|].
  apply best_entity_first_min.
  - intros x y. unfold Inputs.fitness_compare. apply lex_antisym.
  - intros x y z. unfold Inputs.fitness_compare. apply lex_le_trans.
  - vm_compute; reflexivity.
Defined.

End BestEntityExtras.

Module OrderFacts.
Import F64 F64Facts FarmFacts Tournament TournamentOrder TournamentFacts.

Lemma lex_le_lt_trans a b c : lex a b <> Gt -> lex b c = Lt -> lex a c = Lt.
Proof.
  intros H1 H2. assert (H3 : lex a c <> Gt) by (apply (lex_le_trans a b c H1); congruence).
  destruct (lex a c) eqn:E; [|reflexivity|contradiction].
  apply lex_eq in E; subst c. rewrite lex_antisym, H2 in H1. contradiction H1. reflexivity.
Qed.

Lemma lex_lt_le_trans a b c : lex a b = Lt -> lex b c <> Gt -> lex a c = Lt.
Proof.
  intros H1 H2. assert (H3 : lex a c <> Gt) by (apply (lex_le_trans a b c); congruence).
  destruct (lex a c) eqn:E; [|reflexivity|contradiction].
  apply lex_eq in E; subst c. rewrite lex_antisym, H1 in H2. contradiction H2. reflexivity.
Qed.

Lemma leb_not_nan_l (x y : float) : (x <=? y)%float = true -> PrimFloat.is_nan x = false.
Proof.
  intros H. destruct (PrimFloat.is_nan x) eqn:E; [|reflexivity].
  rewrite leb_spec in H. rewrite is_nan_Prim2SF in E. unfold SFleb in H.
  destruct (Prim2SF x); try discriminate; destruct (Prim2SF y); discriminate.
Qed.

Lemma leb_not_nan_r (x y : float) : (x <=? y)%float = true -> PrimFloat.is_nan y = false.
Proof.
  intros H. destruct (PrimFloat.is_nan y) eqn:E; [|reflexivity].
  rewrite leb_spec in H. rewrite is_nan_Prim2SF in E. unfold SFleb in H.
  destruct (Prim2SF y); try discriminate; destruct (Prim2SF x); discriminate.
Qed.

Lemma ltb_not_nan_l (x y : float) : (x <? y)%float = true -> PrimFloat.is_nan x = false.
Proof.
  intros H. destruct (PrimFloat.is_nan x) eqn:E; [|reflexivity].
  rewrite ltb_spec in H. rewrite is_nan_Prim2SF in E. unfold SFltb in H.
  destruct (Prim2SF x); try discriminate; destruct (Prim2SF y); discriminate.
Qed.

Lemma eqb_not_nan_l (x y : float) : (x =? y)%float = true -> PrimFloat.is_nan x = false.
Proof.
  intros H. destruct (PrimFloat.is_nan x) eqn:E; [|reflexivity].
  rewrite eqb_spec in H. rewrite is_nan_Prim2SF in E. unfold SFeqb in H.
  destruct (Prim2SF x); try discriminate; destruct (Prim2SF y); discriminate.
Qed.

Lemma eqb_not_nan_r (x y : float) : (x =? y)%float = true -> PrimFloat.is_nan y = false.
Proof.
  intros H. destruct (PrimFloat.is_nan y) eqn:E; [|reflexivity].
  rewrite eqb_spec in H. rewrite is_nan_Prim2SF in E. unfold SFeqb in H.
  destruct (Prim2SF y); try discriminate; destruct (Prim2SF x); discriminate.
Qed.

Lemma leb_ltb_trans (a b c : float) :
  (a <=? b)%float = true -> (b <? c)%float = true -> (a <? c)%float = true.
Proof.
  intros H1 H2.
  assert (Ha := leb_not_nan_l _ _ H1). assert (Hb := leb_not_nan_r _ _ H1).
  assert (Hc := ltb_not_nan_r _ _ H2).
  apply ltb_lex; [assumption|assumption|].
  apply leb_lex in H1; [|assumption|assumption]. apply ltb_lex in H2; [|assumption|assumption].
  exact (lex_le_lt_trans _ _ _ H1 H2).
Qed.

Lemma ltb_leb_trans (a b c : float) :
  (a <? b)%float = true -> (b <=? c)%float = true -> (a <? c)%float = true.
Proof.
  intros H1 H2.
  assert (Ha := ltb_not_nan_l _ _ H1). assert (Hb := leb_not_nan_l _ _ H2).
  assert (Hc := leb_not_nan_r _ _ H2).
  apply ltb_lex; [assumption|assumption|].
  apply ltb_lex in H1; [|assumption|assumption]. apply leb_lex in H2; [|assumption|assumption].
  exact (lex_lt_le_trans _ _ _ H1 H2).
Qed.

Lemma leb_trans (a b c : float) :
  (a <=? b)%float = true -> (b <=? c)%float = true -> (a <=? c)%float = true.
Proof.
  intros H1 H2.
  assert (Ha := leb_not_nan_l _ _ H1). assert (Hb := leb_not_nan_l _ _ H2).
  assert (Hc := leb_not_nan_r _ _ H2).
  apply leb_lex; [assumption|assumption|].
  apply leb_lex in H1; [|assumption|assumption]. apply leb_lex in H2; [|assumption|assumption].
  exact (lex_le_trans _ _ _ H1 H2).
Qed.

Lemma eqb_ltb_false (a b v : float) :
  (a =? v)%float = true -> (a <? b)%float = true -> (b =? v)%float = false.
Proof.
  intros H1 H2. destruct (b =? v)%float eqn:E; [|reflexivity].
  assert (Ha := eqb_not_nan_l _ _ H1). assert (Hv := eqb_not_nan_r _ _ H1).
  assert (Hb := ltb_not_nan_r _ _ H2).
  apply eqb_lex in H1; [|assumption|assumption]. apply eqb_lex in E; [|assumption|assumption].
  apply ltb_lex in H2; [|assumption|assumption].
  apply lex_eq in H1, E. rewrite H1, <- E, lex_refl in H2. discriminate.
Qed.

End OrderFacts.

Module SortFacts.
Import Rng RngFacts F64 F64Facts Fitness FitnessFacts Tournament TournamentOrder
  TournamentFacts Run FarmFacts OrderFacts.

Section Facts.
Variable G : Type.

Lemma insert_sorted_Permutation (x : CompareRecord G) l :
  Permutation (x :: l) (insert_sorted G x l).
Proof.
  induction l as [|y l IH]; simpl; [reflexivity|].
  destruct (cmp_greater G y x); [reflexivity|].
  eapply perm_trans; [apply perm_swap|]. apply perm_skip. exact IH.
Qed.

Lemma fold_insert_sorted_Permutation (l : list (CompareRecord G)) :
  Permutation l (fold_right (insert_sorted G) [] l).
Proof.
  induction l as [|x l IH]; simpl; [reflexivity|].
  eapply perm_trans; [apply perm_skip; exact IH|]. apply insert_sorted_Permutation.
Qed.

Lemma sort_generation_Permutation (c : list (CompareRecord G)) :
  Permutation c (sort_generation G c).
Proof.
  unfold sort_generation. eapply perm_trans; [apply Permutation_rev|].
  apply fold_insert_sorted_Permutation.
Qed.

Lemma sort_generation_app (c : list (CompareRecord G)) x :
  sort_generation G (c ++ [x]) = insert_sorted G x (sort_generation G c).
Proof. unfold sort_generation. rewrite rev_app_distr. reflexivity. Qed.

Lemma cmp_greater_true (x y : CompareRecord G) :
  not_nan_rec x -> not_nan_rec y -> cmp_greater G y x = true -> fit_lt x y.
Proof.
  unfold cmp_greater, not_nan_rec, fit_lt. intros Hx Hy.
  rewrite (compare_lex _ _ Hy Hx). intros H. apply ltb_lex; [assumption|assumption|].
  rewrite lex_antisym. destruct (lex (kx (fitness y)) (kx (fitness x))); simpl in *; congruence.
Qed.

Lemma cmp_greater_false (x y : CompareRecord G) :
  not_nan_rec x -> not_nan_rec y -> cmp_greater G y x = false -> fit_le y x.
Proof.
  unfold cmp_greater, not_nan_rec, fit_le. intros Hx Hy.
  rewrite (compare_lex _ _ Hy Hx). intros H. apply leb_lex; [assumption|assumption|].
  destruct (lex (kx (fitness y)) (kx (fitness x))); simpl in *; congruence.
Qed.

Lemma Forall_Permutation' {A} (P : A -> Prop) l l' :
  Permutation l l' -> Forall P l -> Forall P l'.
Proof.
  intros HP H. apply Forall_forall. intros x Hx.
  apply (proj1 (Forall_forall _ _) H). apply (Permutation_in x (Permutation_sym HP) Hx).
Qed.

Lemma insert_sorted_sorted (x : CompareRecord G) l :
  Forall not_nan_rec (x :: l) -> StronglySorted fit_le l ->
  StronglySorted fit_le (insert_sorted G x l).
Proof.
  induction l as [|y l IH]; intros Hn Hs; simpl.
  - repeat constructor.
  - inversion Hn as [|? ? Hx Hn']; subst. inversion Hn' as [|? ? Hy Hl]; subst.
    apply StronglySorted_inv in Hs as [Hs Hyl].
    destruct (cmp_greater G y x) eqn:E.
    + apply cmp_greater_true in E; [|assumption|assumption].
      constructor; [constructor; assumption|]. constructor.
      * apply ltb_leb. exact E.
      * eapply Forall_impl; [|exact Hyl]. intros z Hz.
        apply ltb_leb. exact (ltb_leb_trans _ _ _ E Hz).
    + apply cmp_greater_false in E; [|assumption|assumption].
      constructor; [apply IH; [constructor; assumption|exact Hs]|].
      apply (Forall_Permutation' _ _ _ (insert_sorted_Permutation x l)).
      constructor; assumption.
Qed.

Lemma sort_generation_sorted (c : list (CompareRecord G)) :
  Forall not_nan_rec c -> StronglySorted fit_le (sort_generation G c).
Proof.
  intros H. unfold sort_generation.
  assert (Hr : Forall not_nan_rec (rev c)) by
    (apply (Forall_Permutation' _ _ _ (Permutation_rev c)); exact H).
  clear H. induction (rev c) as [|x l IH]; simpl; [constructor|].
  inversion Hr; subst. apply insert_sorted_sorted; [|apply IH; assumption].
  constructor; [assumption|].
  apply (Forall_Permutation' _ _ _ (fold_insert_sorted_Permutation l)). assumption.
Qed.

Lemma filter_all_false {A} (f : A -> bool) l :
  (forall z, In z l -> f z = false) -> filter f l = [].
Proof.
  induction l as [|x l IH]; intros H; simpl; [reflexivity|].
  rewrite (H x (or_introl eq_refl)). apply IH. intros z Hz. apply H. right. exact Hz.
Qed.

Definition fit_eqb (v : float) (x : CompareRecord G) : bool := (fitness x =? v)%float.

Lemma filter_insert_sorted (v : float) (x : CompareRecord G) l :
  Forall not_nan_rec (x :: l) -> StronglySorted fit_le l ->
  filter (fit_eqb v) (insert_sorted G x l) = filter (fit_eqb v) l ++ filter (fit_eqb v) [x].
Proof.
  induction l as [|y l IH]; intros Hn Hs; simpl; [reflexivity|].
  inversion Hn as [|? ? Hx Hn']; subst. inversion Hn' as [|? ? Hy Hl]; subst.
  apply StronglySorted_inv in Hs as [Hs Hyl].
  destruct (cmp_greater G y x) eqn:E.
  - apply cmp_greater_true in E; [|assumption|assumption].
    simpl. destruct (fit_eqb v x) eqn:Ex.
    + assert (Hf : filter (fit_eqb v) (y :: l) = []).
      { apply filter_all_false; intros z Hz. unfold fit_eqb in *.
        destruct Hz as [<-|Hz]; [exact (eqb_ltb_false _ _ _ Ex E)|].
        apply (eqb_ltb_false _ _ _ Ex).
        exact (ltb_leb_trans _ _ _ E (proj1 (Forall_forall _ _) Hyl z Hz)). }
      simpl in Hf. rewrite Hf. reflexivity.
    + rewrite app_nil_r. reflexivity.
  - simpl. destruct (fit_eqb v y); rewrite IH; try reflexivity; try assumption;
      constructor; assumption.
Qed.

Lemma sort_generation_filter (v : float) (c : list (CompareRecord G)) :
  Forall not_nan_rec c ->
  filter (fit_eqb v) (sort_generation G c) = filter (fit_eqb v) c.
Proof.
  induction c as [|x c IH] using rev_ind; intros H; [reflexivity|].
  apply Forall_app in H as [Hc Hx].
  rewrite sort_generation_app, filter_insert_sorted, IH, filter_app; try reflexivity;
    try assumption.
  - inversion Hx; subst. constructor; [assumption|].
    exact (Forall_Permutation' _ _ _ (sort_generation_Permutation c) Hc).
  - apply sort_generation_sorted. exact Hc.
Qed.

Lemma StronglySorted_app_Forall {A} (R : A -> A -> Prop) l1 l2 :
  StronglySorted R (l1 ++ l2) -> Forall (fun x => Forall (R x) l2) l1.
Proof.
  induction l1 as [|x l1 IH]; simpl; intros H; [constructor|].
  apply StronglySorted_inv in H as [H Hx]. constructor; [|apply IH; exact H].
  apply Forall_app in Hx as [_ Hx]. exact Hx.
Qed.

End Facts.

End SortFacts.

Module SampleFacts.
Import Rng RngFacts Tournament TournamentOrder TournamentFacts.

Lemma tournament_sample_sub {G} ts (c : list (CompareRecord G)) r s r' :
  tournament_iter ts c r = Ret s r' -> exists rest, Permutation c (s ++ rest).
Proof.
  destruct c as [|d c'].
  - rewrite tournament_iter_nil. intros H. injection H as <- _. exists []. constructor.
  - destruct (tournament_iter_spec G ts (d :: c') r) as [s0 [r0 [ids [Heq [HP Hs]]]]].
    rewrite Heq. intros H. injection H as <- _. rewrite (Hs d).
    exists (map (fun i => nth i (d :: c') d) (skipn (tournament_size ts (d :: c')) ids)).
    rewrite <- map_app, firstn_skipn.
    rewrite <- (map_nth_seq (d :: c') d) at 1. apply Permutation_map. exact HP.
Qed.

Lemma fold_select_step_In {G} (s : list (CompareRecord G)) w :
  fold_left select_step s None = Some w -> In w s.
Proof.
  revert w. induction s as [|x s IH] using rev_ind; intros w; [discriminate|].
  rewrite fold_select_step_app. unfold select_step at 1.
  destruct (fold_left select_step s None) as [w0|] eqn:E.
  - specialize (IH w0 eq_refl). destruct (PrimFloat.compare _ _); intros H; injection H as <-;
      apply in_or_app; auto; right; left; reflexivity.
  - intros H. injection H as <-. apply in_or_app. right. left. reflexivity.
Qed.

End SampleFacts.

Module TournamentExtras.
Import Rng RngFacts F64 F64Facts Fitness FitnessFacts Tournament TournamentOrder
  TournamentFacts OrderFacts SortFacts SampleFacts.

(** X5: The sample of [Tournament::tournament_iter] has [min(tournament_size,
    len)] records, drawn without replacement: together with the records left
    out it is a rearrangement of the pool. *)
Theorem tournament_sample_without_replacement {G : Type} (ts : nat)
    (c : list (CompareRecord G)) r s r' :
  tournament_iter ts c r = Ret s r' ->
  length s = Nat.min ts (length c) /\ exists rest, Permutation c (s ++ rest).
Proof.
  intros H. split.
  - exact (length_tournament_sample G ts c r s r' H).
  - exact (tournament_sample_sub ts c r s r' H).
Qed.

(** X6: [Tournament::select] only ever returns a record of the pool. *)
Theorem select_winner_in_pool {G : Type} (ts : nat) (c : list (CompareRecord G)) r w r' :
  select ts c r = Ret (Some w) r' -> In w c.
Proof.
  unfold select, bind, ret.
  destruct (tournament_iter ts c r) as [s r1| |] eqn:Hti; try discriminate.
  intros H. injection H as Hw _. apply fold_select_step_In in Hw.
  destruct (tournament_sample_sub ts c r s r1 Hti) as [rest HP].
  apply (Permutation_in w (Permutation_sym HP)). apply in_or_app. left. exact Hw.
Qed.

(** X7: With a tournament size of at least 2 and a pool of at least two records
    (none with a NaN fitness), a record whose fitness is strictly worse than
    that of every other record of the pool is never selected: the winner is
    strictly better. *)
Theorem select_never_strict_worst {G : Type} (ts : nat) (c : list (CompareRecord G))
    r w r' k x :
  (2 <= ts)%nat -> (2 <= length c)%nat -> Forall not_nan_rec c ->
  nth_error c k = Some x ->
  (forall j y, j <> k -> nth_error c j = Some y -> fit_lt y x) ->
  select ts c r = Ret (Some w) r' -> fit_lt w x.
Proof.
  intros Hts Hlen Hnan Hk Hworse Hsel.
  unfold select, bind, ret in Hsel.
  destruct (tournament_iter ts c r) as [s r1| |] eqn:Hti; try discriminate.
  injection Hsel as Hw _.
  assert (Hsnan : Forall not_nan_rec s).
  { destruct (tournament_sample_sub ts c r s r1 Hti) as [rest HP].
    apply (Forall_Permutation' _ _ _ HP) in Hnan. apply Forall_app in Hnan. tauto. }
  apply (fold_select_step_last_min G) in Hw; [|exact Hsnan].
  apply (last_min_le_all G) in Hw; [|exact Hsnan].
  destruct (tournament_iter_spec G ts c r) as [s0 [r0 [ids [Heq [HP Hs]]]]].
  rewrite Hti in Heq. injection Heq as <- _.
  assert (Hids : length ids = length c) by
    (rewrite <- (Permutation_length HP); apply length_seq).
  assert (HND : NoDup (firstn (tournament_size ts c) ids)).
  { apply (NoDup_app_remove_r _ (skipn (tournament_size ts c) ids)).
    rewrite firstn_skipn. apply (Permutation_NoDup HP). apply seq_NoDup. }
  assert (HL : (2 <= length (firstn (tournament_size ts c) ids))%nat).
  { rewrite length_firstn, Hids. unfold tournament_size. lia. }
  assert (Hj : exists j, In j (firstn (tournament_size ts c) ids) /\ j <> k).
  { destruct (firstn (tournament_size ts c) ids) as [|i1 [|i2 L]]; simpl in HL; try lia.
    inversion HND as [|? ? Hi1 _]; subst.
    destruct (Nat.eq_dec i1 k) as [->|Hne].
    - exists i2. split; [right; left; reflexivity|]. intros ->. apply Hi1. left. reflexivity.
    - exists i1. split; [left; reflexivity|exact Hne]. }
  destruct Hj as [j [HjL Hjk]].
  assert (Hjc : (j < length c)%nat).
  { apply In_firstn' in HjL. apply (Permutation_in j (Permutation_sym HP)) in HjL.
    apply in_seq in HjL. lia. }
  assert (Hy : nth_error c j = Some (nth j c x)) by (apply nth_error_nth'; exact Hjc).
  assert (Hlt := Hworse j _ Hjk Hy).
  assert (Hle : fit_le w (nth j c x)).
  { apply (proj1 (Forall_forall _ _) Hw). rewrite (Hs x).
    apply in_map_iff. exists j. auto. }
  unfold fit_le, fit_lt in *. exact (leb_ltb_trans _ _ _ Hle Hlt).
Qed.


(** ** Witnesses *)

(** On the pool of two records, with a tournament of size 2. *)
Lemma tournament_sample_without_replacement_witness :
  length [Inputs.c3_rec0; Inputs.c3_rec1] = Nat.min 2 (length Inputs.c3_pool) /\
  exists rest, Permutation Inputs.c3_pool ([Inputs.c3_rec0; Inputs.c3_rec1] ++ rest).
Proof.
  apply (tournament_sample_without_replacement 2 Inputs.c3_pool (Inputs.rng_const 1 0)
           [Inputs.c3_rec0; Inputs.c3_rec1] (Inputs.rng_const 1 0)).
  vm_compute; reflexivity.
Defined.

Lemma select_winner_in_pool_witness : In Inputs.c3_rec1 Inputs.c3_pool.
Proof.
  apply (select_winner_in_pool 2 Inputs.c3_pool (Inputs.rng_const 1 0) Inputs.c3_rec1
           (Inputs.rng_const 1 0)).
  vm_compute; reflexivity.
Defined.

(** On the pool of fitness [3.0], [1.0], [2.0]: the record of fitness [3.0]
    loses; the winner here has fitness [2.0]. *)
Lemma select_never_strict_worst_witness :
  fit_lt (Build_CompareRecord 2%float 2%nat) (Build_CompareRecord 3%float 0%nat).
Proof.
  apply (select_never_strict_worst 2 Inputs.x7_pool (Inputs.rng_const 1 0)
           (Build_CompareRecord 2%float 2%nat) (Inputs.rng_const 1 0) 0
           (Build_CompareRecord 3%float 0%nat)).
  - lia.
  - simpl. lia.
  - repeat constructor.
  - reflexivity.
  - intros j y Hj E. destruct j as [|[|[|j]]]; [lia| | |].
    + vm_compute in E. injection E as <-. reflexivity.
    + vm_compute in E. injection E as <-. reflexivity.
    + vm_compute in E. destruct j; discriminate.
  - vm_compute; reflexivity.
Defined.

End TournamentExtras.

Module EliteFacts.
Import Rng Fitness FitnessFacts Tournament TournamentOrder Run.

Lemma check_ok_not_nan (calc : Calc) (predict : Predict) f :
  check calc predict = Ok f -> PrimFloat.is_nan f = false.
Proof.
  unfold check, rbind.
  destruct (convert (length calc)); [|discriminate].
  destruct (sum_results _ _); [|discriminate].
  intros H. apply checked_divide_ok in H. tauto.
Qed.

Lemma rank_generation_not_nan {G} (predict_of : G -> Predict) (rn : Run G) generation :
  Forall not_nan_rec (rank_generation predict_of rn generation).
Proof.
  unfold rank_generation. induction generation as [|g l IH]; simpl; [constructor|].
  unfold result_ok, create_compare_record.
  destruct (check (fitness_calc rn) (predict_of g)) as [f|e] eqn:E; [|exact IH].
  constructor; [|exact IH]. exact (check_ok_not_nan _ _ _ E).
Qed.

End EliteFacts.

Module SortExtras.
Import Rng Fitness Tournament TournamentOrder Run SortFacts EliteFacts.

(** X8: [sort::sort_generation] rearranges its records into non-decreasing order
    of fitness when no fitness is NaN. *)
Theorem sort_generation_sorted_permutation {G : Type} (c : list (CompareRecord G)) :
  Forall not_nan_rec c ->
  Permutation c (sort_generation G c) /\ StronglySorted fit_le (sort_generation G c).
Proof.
  intros H. split; [apply sort_generation_Permutation|apply sort_generation_sorted; exact H].
Qed.

(** X9: [sort::sort_generation] is stable: when no fitness is NaN, the records of
    any one fitness value keep their relative order. *)
Theorem sort_generation_stable {G : Type} (c : list (CompareRecord G)) (v : float) :
  Forall not_nan_rec c ->
  filter (fun x => (fitness x =? v)%float) (sort_generation G c) =
  filter (fun x => (fitness x =? v)%float) c.
Proof. apply (sort_generation_filter G v c). Qed.

(** X10: [Run::partition_elite] of a ranked generation keeps
    [min(elitism, len)] genomes, taken from records whose fitness is not
    above that of any record left out. *)
Theorem partition_elite_best {G : Type} (predict_of : G -> Predict) (rn : Run G)
    (generation : list G) :
  exists elite rest,
    Permutation (rank_generation predict_of rn generation) (elite ++ rest) /\
    partition_elite rn (rank_generation predict_of rn generation) = map predict elite /\
    length elite = Nat.min (elitism rn) (length (rank_generation predict_of rn generation)) /\
    Forall (fun x => Forall (fit_le x) rest) elite.
Proof.
  set (ranked := rank_generation predict_of rn generation).
  set (s := sort_generation G ranked).
  assert (HP : Permutation ranked s) by apply sort_generation_Permutation.
  assert (Hs : StronglySorted fit_le s)
    by (apply sort_generation_sorted, rank_generation_not_nan).
  set (k := Nat.min (elitism rn) (length ranked)).
  exists (firstn k s), (skipn k s). split; [rewrite firstn_skipn; exact HP|]. split.
  - unfold partition_elite, unrank_generation. cbv zeta. fold s.
    rewrite length_map, <- (Permutation_length HP), firstn_map. reflexivity.
  - split.
    + rewrite length_firstn, <- (Permutation_length HP). unfold k. lia.
    + apply StronglySorted_app_Forall. rewrite firstn_skipn. exact Hs.
Qed.


(** ** Witnesses *)

Lemma sort_generation_sorted_permutation_witness :
  Permutation Inputs.x7_pool (sort_generation nat Inputs.x7_pool) /\
  StronglySorted fit_le (sort_generation nat Inputs.x7_pool).
Proof.
  apply sort_generation_sorted_permutation. repeat constructor.
Defined.

(** The two records of fitness [2.0] keep their order. *)
Lemma sort_generation_stable_witness :
  filter (fun x => (fitness x =? 2)%float) (sort_generation nat Inputs.tie_pool) =
  filter (fun x => (fitness x =? 2)%float) Inputs.tie_pool.
Proof.
  apply sort_generation_stable. repeat constructor.
Defined.

End SortExtras.

Module MutateFacts.
Import Rng RngFacts F64 F64Facts FarmFacts TournamentFacts OrderFacts Farm.

Lemma gen_range_f64_spec lo hi r :
  (lo <? hi)%float = true -> PrimFloat.is_finite (hi - lo)%float = true ->
  exists u, gen_range_f64 lo hi r = Ret u (Streams.tl r) /\
    (lo <=? u)%float = true /\ (u <? hi)%float = true.
Proof.
  intros H1 H2. unfold gen_range_f64. rewrite H1, H2. simpl.
  set (u := draw_float (Streams.hd r)).
  exists (if (lo <=? u)%float && (u <? hi)%float then u else lo). split; [reflexivity|].
  destruct ((lo <=? u)%float && (u <? hi)%float) eqn:E.
  - apply andb_true_iff in E. exact E.
  - split; [apply leb_refl; exact (ltb_not_nan_l _ _ H1)|exact H1].
Qed.

Lemma check_mutate_zero_rate m r :
  (0 <? mutation_rate m)%float = false -> check_mutate m r = Ret false (Streams.tl r).
Proof.
  intros Hm. unfold check_mutate, bind, ret.
  destruct (gen_range_f64_spec 0 1 r) as [u [Hu [H0 _]]];
    [vm_compute; reflexivity|vm_compute; reflexivity|].
  rewrite Hu. destruct (u <? mutation_rate m)%float eqn:E; [|reflexivity].
  rewrite (leb_ltb_trans _ _ _ H0 E) in Hm. discriminate.
Qed.

Lemma mutation_size_ret m r : exists s, mutation_size m r = Ret s (Streams.tl r).
Proof.
  unfold mutation_size, bind, ret.
  destruct (gen_range_f64_spec (-1) 1 r) as [u [Hu _]];
    [vm_compute; reflexivity|vm_compute; reflexivity|].
  rewrite Hu. eexists. reflexivity.
Qed.

Lemma f64_mutate_zero_rate m x r :
  (0 <? mutation_rate m)%float = false -> exists r', f64_mutate m x r = Ret x r'.
Proof.
  intros Hm. unfold f64_mutate, bind, ret.
  cbv beta. destruct (mutation_size_ret m r) as [s Hs]. rewrite Hs. cbv beta.
  destruct (0 <? s)%float; [rewrite check_mutate_zero_rate by exact Hm|]; eexists; reflexivity.
Qed.

Lemma activator_mutate_zero_rate m g r :
  (0 <? mutation_rate m)%float = false -> exists r', activator_mutate m g r = Ret g r'.
Proof.
  intros Hm. unfold activator_mutate, gene_mutate, bind, ret.
  cbv beta. destruct (mutation_size_ret m r) as [s Hs]. rewrite Hs. cbv beta.
  destruct g as [a].
  destruct (0 <? s)%float; [rewrite check_mutate_zero_rate by exact Hm|]; eexists; reflexivity.
Qed.

Lemma mapM_id {A} (f : A -> M A) l :
  (forall x r, In x l -> exists r', f x r = Ret x r') ->
  forall r, exists r', mapM f l r = Ret l r'.
Proof.
  induction l as [|x l IH]; intros Hf r; simpl; [eexists; reflexivity|].
  unfold bind, ret. destruct (Hf x r (or_introl eq_refl)) as [r1 H1]. rewrite H1.
  destruct (IH (fun y r' Hy => Hf y r' (or_intror Hy)) r1) as [r2 H2]. rewrite H2.
  eexists. reflexivity.
Qed.

Lemma neuron_mutate_zero_rate m g r :
  (0 <? mutation_rate m)%float = false -> exists r', neuron_mutate m g r = Ret g r'.
Proof.
  intros Hm. unfold neuron_mutate, bind, ret.
  destruct (activator_mutate_zero_rate m (activator g) r Hm) as [r1 H1]. rewrite H1.
  destruct (mapM_id (f64_mutate m) (weights g)
              (fun x r' _ => f64_mutate_zero_rate m x r' Hm) r1) as [r2 H2].
  unfold vec_mutate. rewrite H2.
  destruct (f64_mutate_zero_rate m (bias g) r2 Hm) as [r3 H3]. rewrite H3.
  rewrite check_mutate_zero_rate by exact Hm.
  destruct g. eexists. reflexivity.
Qed.

Lemma layer_mutate_zero_rate m g r :
  (0 <? mutation_rate m)%float = false -> exists r', layer_mutate m g r = Ret g r'.
Proof.
  intros Hm. unfold layer_mutate, vec_mutate, bind, ret.
  destruct (mapM_id (neuron_mutate m) (neurons g)
              (fun x r' _ => neuron_mutate_zero_rate m x r' Hm) r) as [r1 H1].
  rewrite H1. destruct g. eexists. reflexivity.
Qed.

Lemma network_mutate_zero_rate' m g r :
  (0 <? mutation_rate m)%float = false -> exists r', network_mutate m g r = Ret g r'.
Proof.
  intros Hm. unfold network_mutate, vec_mutate, bind, ret.
  destruct (mapM_id (layer_mutate m) (layers g)
              (fun x r' _ => layer_mutate_zero_rate m x r' Hm) r) as [r1 H1].
  rewrite H1. destruct g. eexists. reflexivity.
Qed.

Lemma mapM_Forall2 {A B} (f : A -> M B) l : forall r ys r',
  mapM f l r = Ret ys r' -> Forall2 (fun x y => exists r1 r2, f x r1 = Ret y r2) l ys.
Proof.
  induction l as [|x l IH]; intros r ys r' H; simpl in H.
  - inversion H. constructor.
  - unfold bind, ret in H. destruct (f x r) as [y r1| |] eqn:E1; try discriminate.
    destruct (mapM f l r1) as [ys' r2| |] eqn:E2; try discriminate.
    inversion H; subst. constructor; [exists r, r1; exact E1|exact (IH _ _ _ E2)].
Qed.

Lemma Forall2_map_eq {A B C} (f : A -> C) (g : B -> C) l ys :
  Forall2 (fun x y => g y = f x) l ys -> map g ys = map f l.
Proof. induction 1; simpl; congruence. Qed.

Lemma neuron_mutate_length m (g g' : NeuronGenome) r r' :
  neuron_mutate m g r = Ret g' r' -> length (weights g') = length (weights g).
Proof.
  unfold neuron_mutate, bind, ret.
  destruct (activator_mutate m (activator g) r) as [a r1| |]; try discriminate.
  destruct (vec_mutate (f64_mutate m) (weights g) r1) as [w r2| |] eqn:Hw; try discriminate.
  destruct (f64_mutate m (bias g) r2) as [b r3| |]; try discriminate.
  destruct (check_mutate m r3) as [[] r4| |]; try discriminate.
  - destruct (mutate_weights w r4) as [w' r5| |] eqn:Hm; try discriminate.
    intros H. inversion H; subst. simpl.
    rewrite (mutate_weights_length _ _ _ _ Hm). exact (mapM_length _ _ _ _ _ Hw).
  - intros H. inversion H; subst. simpl. exact (mapM_length _ _ _ _ _ Hw).
Qed.

Lemma layer_mutate_shape m (g g' : LayerGenome) r r' :
  layer_mutate m g r = Ret g' r' ->
  map (fun n => length (weights n)) (neurons g') = map (fun n => length (weights n)) (neurons g).
Proof.
  unfold layer_mutate, vec_mutate, bind, ret.
  destruct (mapM (neuron_mutate m) (neurons g) r) as [ns r1| |] eqn:E; try discriminate.
  intros H. inversion H; subst. simpl. apply Forall2_map_eq.
  eapply Forall2_impl; [|exact (mapM_Forall2 _ _ _ _ _ E)].
  intros x y [r2 [r3 Hxy]]. exact (neuron_mutate_length _ _ _ _ _ Hxy).
Qed.

End MutateFacts.

Module GenomeExtras.
Import Rng RngFacts F64 F64Facts FarmFacts Farm MutateFacts.

(** X11: A mutator whose [mutation_rate] is not positive (zero, negative or NaN)
    never changes a network genome: [check_mutate] never succeeds, so no
    activator, weight, bias or structural mutation is applied. *)
Theorem zero_rate_network_unchanged (m : Mutator) (g : NetworkGenome) r :
  (0 <? mutation_rate m)%float = false -> exists r', network_mutate m g r = Ret g r'.
Proof. apply network_mutate_zero_rate'. Qed.

(** X12: Mutating a network genome keeps its shape: the number of layers, of
    neurons in each layer and of weights of each neuron. *)
Theorem network_mutate_shape (m : Mutator) (g g' : NetworkGenome) r r' :
  network_mutate m g r = Ret g' r' -> network_shape g' = network_shape g.
Proof.
  unfold network_mutate, vec_mutate, bind, ret, network_shape.
  destruct (mapM (layer_mutate m) (layers g) r) as [ls r1| |] eqn:E; try discriminate.
  intros H. inversion H; subst. simpl. apply Forall2_map_eq.
  eapply Forall2_impl; [|exact (mapM_Forall2 _ _ _ _ _ E)].
  intros x y [r2 [r3 Hxy]]. exact (layer_mutate_shape _ _ _ _ _ Hxy).
Qed.

(** X13: The crossover of two activator genomes always returns one of them; when
    they agree it returns that gene without drawing from the generator. *)
Theorem activator_crossover_parent (a b : ActivatorGenome) r :
  exists g r', activator_crossover a b r = Ret g r' /\ (g = a \/ g = b) /\
    (a = b -> g = a /\ r' = r).
Proof.
  destruct a as [[]], b as [[]]; unfold activator_crossover, gene_crossover, bind, ret;
    simpl; try (eexists _, _; split; [reflexivity|]; split; [left; reflexivity|auto]).
  all: unfold random_bool; destruct (N.odd (draw_int (Streams.hd r)));
    eexists _, _; (split; [reflexivity|]); split; auto; discriminate.
Qed.


(** ** Witnesses *)

Lemma zero_rate_network_unchanged_witness :
  exists r', network_mutate Inputs.zero_mutator Inputs.net1 (Inputs.rng_const 0 0) =
    Ret Inputs.net1 r'.
Proof.
  apply zero_rate_network_unchanged. vm_compute; reflexivity.
Defined.

(** The default mutator changes weights, biases and activators of [net1],
    not its shape. *)
Lemma network_mutate_shape_witness :
  exists g' r', network_mutate default_mutator Inputs.net1 (Inputs.rng_const 3 0x1p-4) =
    Ret g' r' /\ network_shape g' = network_shape Inputs.net1.
Proof.
  destruct (network_mutate default_mutator Inputs.net1 (Inputs.rng_const 3 0x1p-4))
    as [g' r'| |] eqn:E; [|vm_compute in E; discriminate..].
  exists g', r'. split; [reflexivity|].
  apply (network_mutate_shape default_mutator Inputs.net1 g' (Inputs.rng_const 3 0x1p-4) r').
  exact E.
Defined.

End GenomeExtras.

Module VecMutationFacts.
Import Rng RngFacts Farm.

Lemma nth_error_lt {A} (l : list A) i : (i < length l)%nat -> exists a, nth_error l i = Some a.
Proof.
  intros H. destruct (nth_error l i) eqn:E; [eexists; reflexivity|].
  apply nth_error_None in E. lia.
Qed.

Lemma slice_swap_nth {A} (l l' : list A) i j a b :
  nth_error l i = Some a -> nth_error l j = Some b ->
  slice_swap l i j = Some l' ->
  nth_error l' i = Some b /\ nth_error l' j = Some a /\
  (forall n, n <> i -> n <> j -> nth_error l' n = nth_error l n).
Proof.
  intros Ha Hb. unfold slice_swap. rewrite Ha, Hb. intros H. injection H as <-.
  rewrite !nth_error_list_set, !Nat.eqb_refl, Ha.
  destruct (Nat.eqb_spec i j) as [->|Hij].
  - rewrite Ha in Hb. injection Hb as ->. rewrite Nat.eqb_refl, Ha.
    repeat split; try reflexivity.
    intros n Hn _. rewrite nth_error_list_set, nth_error_list_set.
    apply Nat.eqb_neq in Hn. rewrite Hn. reflexivity.
  - rewrite (proj2 (Nat.eqb_neq j i)) by congruence. rewrite Hb.
    repeat split; try reflexivity.
    intros n Hn Hn'. rewrite !nth_error_list_set.
    apply Nat.eqb_neq in Hn, Hn'. rewrite Hn, Hn'. reflexivity.
Qed.

End VecMutationFacts.

Module VecMutationExtras.
Import Rng RngFacts Farm VecMutationFacts.

(** X14: Inserting an element at an index [i <= len] with [VecMutation::Insert]
    lengthens the vector by one and puts the element at [i]; removing at [i]
    with [VecMutation::Remove] gives the original vector back. *)
Theorem insert_remove_round_trip {T : Type} (l : list T) i x :
  (i <= length l)%nat ->
  exists l', vec_mutation_apply (Insert i x) l = Some l' /\ length l' = S (length l) /\
    nth_error l' i = Some x /\ vec_mutation_apply (Remove i) l' = Some l.
Proof.
  intros Hi. unfold vec_mutation_apply at 1.
  destruct (Nat.leb_spec i (length l)) as [_|]; [|lia].
  eexists. split; [reflexivity|].
  assert (HA : length (firstn i l) = i) by (rewrite length_firstn; lia).
  split; [|split].
  - rewrite length_app, length_cons, length_firstn, length_skipn. lia.
  - rewrite nth_error_app2 by lia. rewrite HA, Nat.sub_diag. reflexivity.
  - unfold vec_mutation_apply.
    destruct (Nat.ltb_spec i (length (firstn i l ++ x :: skipn i l))) as [_|Hc].
    + rewrite firstn_app, skipn_app, HA, Nat.sub_diag.
      rewrite (firstn_all2 (firstn i l)) by lia. rewrite (skipn_all2 (firstn i l)) by lia.
      replace (S i - i)%nat with 1%nat by lia. simpl.
      rewrite app_nil_r, firstn_skipn. reflexivity.
    + rewrite length_app, length_cons in Hc. lia.
Qed.

(** X15: [VecMutation::Replace] at an index in range writes the element there and
    leaves the length and every other position unchanged. *)
Theorem replace_sets_index {T : Type} (l : list T) i x :
  (i < length l)%nat ->
  exists l', vec_mutation_apply (Replace i x) l = Some l' /\ length l' = length l /\
    nth_error l' i = Some x /\ (forall j, j <> i -> nth_error l' j = nth_error l j).
Proof.
  intros Hi. unfold vec_mutation_apply.
  destruct (Nat.ltb_spec i (length l)) as [_|]; [|lia].
  eexists. split; [reflexivity|]. split; [apply length_list_set|]. split.
  - rewrite nth_error_list_set, Nat.eqb_refl.
    destruct (nth_error_lt l i Hi) as [a ->]. reflexivity.
  - intros j Hj. rewrite nth_error_list_set. apply Nat.eqb_neq in Hj. rewrite Hj.
    reflexivity.
Qed.

(** X16: Applying the same [VecMutation::Swap] twice gives the original vector
    back. *)
Theorem swap_involutive {T : Type} (l l' : list T) i j :
  vec_mutation_apply (Swap i j) l = Some l' -> vec_mutation_apply (Swap i j) l' = Some l.
Proof.
  simpl. intros H.
  assert (H' := H). unfold slice_swap in H'.
  destruct (nth_error l i) as [a|] eqn:Ha; [|discriminate].
  destruct (nth_error l j) as [b|] eqn:Hb; [|discriminate].
  destruct (slice_swap_nth l l' i j a b Ha Hb H) as [Hi [Hj Hn]].
  unfold slice_swap. rewrite Hi, Hj. f_equal. apply nth_error_ext. intros n.
  rewrite !nth_error_list_set.
  destruct (Nat.eqb_spec n j) as [->|Hnj].
  - rewrite Hb. destruct (Nat.eqb_spec j i) as [->|]; [rewrite Hi|rewrite Hj]; reflexivity.
  - destruct (Nat.eqb_spec n i) as [->|Hni]; [rewrite Hi, Ha; reflexivity|].
    symmetry. exact (eq_sym (Hn n Hni Hnj)).
Qed.

(** X17: Applying the same [VecMutation::Reverse] twice gives the original vector
    back. *)
Theorem reverse_involutive {T : Type} (l l' : list T) i j :
  vec_mutation_apply (Reverse i j) l = Some l' -> vec_mutation_apply (Reverse i j) l' = Some l.
Proof.
  unfold vec_mutation_apply.
  set (mn := Nat.min i j). set (mx := Nat.max i j).
  destruct (Nat.eqb_spec mn mx) as [E|E].
  - intros H. injection H as <-. reflexivity.
  - destruct (Nat.ltb_spec mx (length l)) as [Hlt|]; [|discriminate].
    assert (Hmn : (mn < mx)%nat) by (unfold mn, mx in *; lia).
    assert (Hinj : forall x, Some x = Some l' -> x = l') by congruence.
    intros H. rewrite <- (Hinj _ H). clear Hinj H.
    set (A := firstn mn l). set (B := firstn (S mx - mn) (skipn mn l)).
    set (C := skipn (S mx) l).
    assert (HA : length A = mn) by (unfold A; rewrite length_firstn; lia).
    assert (HB : length B = (S mx - mn)%nat)
      by (unfold B; rewrite length_firstn, length_skipn; lia).
    assert (HC : length C = (length l - S mx)%nat) by (unfold C; apply length_skipn).
    assert (Hl : length (A ++ rev B ++ C) = length l)
      by (rewrite !length_app, length_rev; lia).
    rewrite Hl. destruct (Nat.ltb_spec mx (length l)) as [_|]; [|lia].
    replace (firstn mn (A ++ rev B ++ C)) with A
      by (rewrite <- HA; symmetry; apply firstn_length_app).
    replace (skipn mn (A ++ rev B ++ C)) with (rev B ++ C)
      by (rewrite <- HA; symmetry; apply skipn_length_app).
    replace (firstn (S mx - mn) (rev B ++ C)) with (rev B)
      by (rewrite <- HB, <- length_rev; symmetry; apply firstn_length_app).
    replace (skipn (S mx) (A ++ rev B ++ C)) with C
      by (replace (S mx) with (length (A ++ rev B)) by (rewrite length_app, length_rev; lia);
          rewrite app_assoc; symmetry; apply skipn_length_app).
    rewrite rev_involutive.
    unfold A, B, C. f_equal.
    replace (skipn (S mx) l) with (skipn (S mx - mn) (skipn mn l))
      by (rewrite skipn_skipn; f_equal; lia).
    rewrite firstn_skipn. apply firstn_skipn.
Qed.

(** X18: [VecMutation::new(len, ..)] panics for an empty vector ([gen_range(0..0)]),
    and every mutation it generates for a vector of length [len] applies to
    that vector without panicking. *)
Theorem vec_mutation_new_in_bounds {T : Type} (l : list T) (factory : M T) r v r' :
  vec_mutation_new (length l) factory r = Ret v r' ->
  l <> [] /\ exists l', vec_mutation_apply v l = Some l'.
Proof.
  unfold vec_mutation_new, bind, ret.
  destruct (gen_range_usize_spec 0 5 r) as [k [Hk Hk5]]; [lia|]. rewrite Hk. cbv beta iota.
  destruct l as [|a t].
  - simpl length.
    destruct k as [|[|[|[|k]]]]; cbv beta iota; rewrite gen_range_usize_empty by (simpl; lia); discriminate.

  - set (n := length (a :: t)).
    assert (Hn : (0 < n)%nat) by (unfold n; simpl; lia).
    destruct (gen_range_usize_spec 0 n (Streams.tl r)) as [i [Hi Hin]]; [exact Hn|].
    destruct (gen_range_usize_spec 0 n (Streams.tl (Streams.tl r))) as [j [Hj Hjn]];
      [exact Hn|].
    destruct k as [|[|[|[|k]]]]; cbv beta iota; rewrite Hi; cbv beta iota;
      intros H; (split; [discriminate|]).
    + destruct (factory (Streams.tl (Streams.tl r))) as [x r2| |]; try discriminate.
      injection H as <- _. unfold vec_mutation_apply.
      destruct (Nat.leb_spec i (length (a :: t))); [eexists; reflexivity|unfold n in *; lia].
    + destruct (factory (Streams.tl (Streams.tl r))) as [x r2| |]; try discriminate.
      injection H as <- _. unfold vec_mutation_apply.
      destruct (Nat.ltb_spec i (length (a :: t))); [eexists; reflexivity|unfold n in *; lia].
    + injection H as <- _. unfold vec_mutation_apply.
      destruct (Nat.ltb_spec i (length (a :: t))); [eexists; reflexivity|unfold n in *; lia].
    + rewrite Hj in H. injection H as <- _. simpl. unfold slice_swap.
      destruct (nth_error_lt (a :: t) i) as [x ->]; [unfold n in *; lia|].
      destruct (nth_error_lt (a :: t) j) as [y ->]; [unfold n in *; lia|].
      eexists; reflexivity.
    + rewrite Hj in H. injection H as <- _. unfold vec_mutation_apply.
      destruct (Nat.min i j =? Nat.max i j)%nat; [eexists; reflexivity|].
      destruct (Nat.ltb_spec (Nat.max i j) (length (a :: t))); [eexists; reflexivity|].
      unfold n in *; lia.
Qed.


(** ** Witnesses *)

Lemma insert_remove_round_trip_witness :
  exists l', vec_mutation_apply (Insert 1 9%nat) [1; 2; 3]%nat = Some l' /\
    length l' = S (length [1; 2; 3]%nat) /\ nth_error l' 1 = Some 9%nat /\
    vec_mutation_apply (Remove 1) l' = Some [1; 2; 3]%nat.
Proof.
  apply insert_remove_round_trip. simpl. lia.
Defined.

Lemma replace_sets_index_witness :
  exists l', vec_mutation_apply (Replace 2 9%nat) [1; 2; 3]%nat = Some l' /\
    length l' = length [1; 2; 3]%nat /\ nth_error l' 2 = Some 9%nat /\
    (forall j, j <> 2%nat -> nth_error l' j = nth_error [1; 2; 3]%nat j).
Proof.
  apply replace_sets_index. simpl. lia.
Defined.

Lemma swap_involutive_witness :
  vec_mutation_apply (Swap 0 2) [3; 2; 1]%nat = Some [1; 2; 3]%nat.
Proof.
  apply (swap_involutive [1; 2; 3]%nat [3; 2; 1]%nat 0 2). reflexivity.
Defined.

Lemma reverse_involutive_witness :
  vec_mutation_apply (Reverse 3 0) [4; 3; 2; 1; 5]%nat = Some [1; 2; 3; 4; 5]%nat.
Proof.
  apply (reverse_involutive [1; 2; 3; 4; 5]%nat [4; 3; 2; 1; 5]%nat 3 0). reflexivity.
Defined.

(** The generator drawing [0] everywhere gives [Insert(0, 7)] for a vector of
    length 3. *)
Lemma vec_mutation_new_in_bounds_witness :
  [1; 2; 3]%nat <> [] /\ exists l', vec_mutation_apply (Insert 0 7%nat) [1; 2; 3]%nat = Some l'.
Proof.
  apply (vec_mutation_new_in_bounds [1; 2; 3]%nat (ret 7%nat) (Inputs.rng_const 0 0)
           (Insert 0 7%nat) (Inputs.rng_const 0 0)).
  vm_compute; reflexivity.
Defined.

End VecMutationExtras.
